(** * onebrc: range partitioning, chunk aggregation and merge

    A shallow embedding of [main.go] (package [main]) and the properties of
    its partitioner ([determineRanges]), aggregator ([task]), merger and
    formatter ([run], [writeOutput]).

    Conventions of the embedding:
    - a Go [byte] is an [ascii], a [[]byte] a [list ascii], a Go [string] a
      [string];
    - an [int64] (and [int], 64 bits wide) is a [Z] kept in range by
      [int64_wrap], written at every arithmetic operation of the source;
    - a [float32] is a [spec_float] with the operations of [SpecFloat] at
      precision 24 and maximal exponent 128 (IEEE 754 binary32, rounding to
      nearest even);
    - a [map[string]*Measurements] is a [gmap string Measurements]: every
      pointer stored in a map of the source is fresh, so updating through the
      pointer is the same as storing the updated record under the key;
    - a loop without a bound of its own takes fuel, and [None] means that the
      fuel ran out;
    - a run-time panic is a result of its own, [Panics]. *)

From Stdlib Require Import ZArith List Lia Ascii String Bool SpecFloat.
From Stdlib Require Import Permutation.
From stdpp Require Import base option list gmap strings sorting pretty.

Local Open Scope Z_scope.

(** ** Machine integers *)

Definition int64_min : Z := - 2 ^ 63.
Definition int64_max : Z := 2 ^ 63 - 1.

Definition int64_wrap (z : Z) : Z := (z + 2 ^ 63) mod 2 ^ 64 - 2 ^ 63.

(** ** Bytes *)

Definition StationDelimeter : ascii := ";"%char.
Definition MeasurementDelimeter : ascii := "010"%char.

Definition byte_eqb (a b : ascii) : bool := Ascii.eqb a b.

(** ** Results *)

Inductive panic :=
  | DivideByZero
  | IndexOutOfRange (index len : Z)
  | NilDereference
  | ChanSizeOutOfRange (size : Z).

Inductive error :=
  | ErrOpen
  | ErrNegativeOffset
  | ErrInvalid
  | ErrTooLong
  | ErrNumRanges (n length : Z)
  | ErrInvalidRangeEnd (e : Z)
  | ErrSyntax (s : string)
  | ErrRange (s : string)
  | ErrMissingEntry (station : string).

Inductive outcome (A : Type) :=
  | Panics (p : panic)
  | Fails (e : error)
  | Returns (a : A).
Arguments Panics {A} p.
Arguments Fails {A} e.
Arguments Returns {A} a.

(** ** The data model of [main.go] *)

Record Range := { Begin : Z; End : Z }.

(** ** Files

    An open [*os.File]: the bytes of the file and the offset of the
    descriptor.  [Seek] with whence 0 to a negative position fails and
    leaves the offset where it was; a position past the end is accepted.
    [Read] of one byte at or past the end reads nothing and leaves the
    buffer as it was.  The source ignores what both calls return. *)

Record File := { content : list ascii; offset : Z }.

Definition fileLength (f : File) : Z := Z.of_nat (length (content f)).

Definition openFile (bytes : list ascii) : File :=
  {| content := bytes; offset := 0 |}.

Definition seekEnd (f : File) : File :=
  {| content := content f; offset := fileLength f |}.

Definition seekStart (f : File) (pos : Z) : File :=
  if pos <? 0 then f else {| content := content f; offset := pos |}.

Definition readByte (f : File) (b : ascii) : File * ascii :=
  match content f !! Z.to_nat (offset f) with
  | Some c => ({| content := content f; offset := offset f + 1 |}, c)
  | None => (f, b)
  end.

(** ** [determineRanges] *)

(** The loop that adjusts the end of a range, written twice in the source
    (for the first range and for the middle ranges):
    [for { f.Seek(end, 0); f.Read(b); if b[0] == delim { end++; break }; end-- }]. *)
Fixpoint adjustEnd (fuel : nat) (delim : ascii) (f : File) (b : ascii) (e : Z)
  : option (File * ascii * Z) :=
  match fuel with
  | O => None
  | S fuel' =>
      let '(f1, b1) := readByte (seekStart f e) b in
      if byte_eqb b1 delim
      then Some (f1, b1, int64_wrap (e + 1))
      else adjustEnd fuel' delim f1 b1 (int64_wrap (e - 1))
  end.

(** [for i := int64(1); i < n-1; i++ { ... }]: [cnt] iterations are left and
    the loop variable is [i]. *)
Fixpoint middleRanges (fuel : nat) (delim : ascii) (approxSize : Z)
    (cnt : nat) (i : Z) (f : File) (b : ascii) (ranges : list Range)
  : option (outcome (File * ascii * list Range)) :=
  match cnt with
  | O => Some (Returns (f, b, ranges))
  | S cnt' =>
      match ranges !! Z.to_nat (i - 1) with
      | None => Some (Panics (IndexOutOfRange (i - 1) (Z.of_nat (length ranges))))
      | Some previous =>
          let begin := End previous in
          let e := int64_wrap (begin + approxSize) in
          match adjustEnd fuel delim f b e with
          | None => None
          | Some (f1, b1, e1) =>
              middleRanges fuel delim approxSize cnt' (int64_wrap (i + 1)) f1 b1
                (ranges ++ [{| Begin := begin; End := e1 |}])
          end
      end
  end.

Definition lastEnd (ranges : list Range) : outcome Z :=
  match last ranges with
  | Some r => Returns (End r)
  | None => Panics (IndexOutOfRange (-1) 0)
  end.

(** [fs] is what is stored under [filename]: [None] when the file cannot be
    opened.  [None] as a result: the fuel ran out in one of the loops. *)
Definition determineRanges (fuel : nat) (fs : option (list ascii)) (n : Z)
    (delim : ascii) : option (outcome (list Range)) :=
  match fs with
  | None => Some (Fails ErrOpen)
  | Some bytes =>
      let f := seekEnd (openFile bytes) in
      let length := offset f in
      if n =? 1 then Some (Returns [{| Begin := 0; End := length |}])
      else if n =? 0 then Some (Panics DivideByZero)
      else
        let approxSize := Z.quot length n in
        if approxSize =? 0 then Some (Fails (ErrNumRanges n length))
        else
          match adjustEnd fuel delim f "000"%char approxSize with
          | None => None
          | Some (f1, b1, e0) =>
              let ranges := [{| Begin := 0; End := e0 |}] in
              match lastEnd ranges with
              | Panics p => Some (Panics p)
              | Fails e => Some (Fails e)
              | Returns le =>
                  if le <? 0 then Some (Fails (ErrInvalidRangeEnd le))
                  else
                    match middleRanges fuel delim approxSize
                            (Z.to_nat (int64_wrap (n - 1) - 1)) 1 f1 b1 ranges with
                    | None => None
                    | Some (Panics p) => Some (Panics p)
                    | Some (Fails e) => Some (Fails e)
                    | Some (Returns (_, _, ranges')) =>
                        match lastEnd ranges' with
                        | Panics p => Some (Panics p)
                        | Fails e => Some (Fails e)
                        | Returns le' =>
                            Some (Returns (ranges' ++ [{| Begin := le'; End := length |}]))
                        end
                    end
              end
          end
  end.

(** ** float32

    The arithmetic of the source on [float32]: [+], [/], the conversion
    [float32(int)], the comparisons, and the built-in [min] and [max], which
    return NaN when an argument is NaN and order the negative zero before
    the positive one. *)

Definition float32 : Type := spec_float.

Definition f32_add : float32 -> float32 -> float32 := SFadd 24 128.
Definition f32_div : float32 -> float32 -> float32 := SFdiv 24 128.
Definition f32_of_int (z : Z) : float32 := binary_normalize 24 128 z 0 false.
Definition f32_lt : float32 -> float32 -> bool := SFltb.
Definition f32_le : float32 -> float32 -> bool := SFleb.
Definition f32_eq : float32 -> float32 -> bool := SFeqb.
Definition f32_is_nan (x : float32) : bool := negb (f32_eq x x).
Definition f32_zero : float32 := S754_zero false.

Definition f32_signbit (x : float32) : bool :=
  match x with
  | S754_zero s | S754_infinity s | S754_finite s _ _ => s
  | S754_nan => false
  end.

(** The built-in [min] and [max] on two floating-point values, as the Go
    runtime computes them: [if y != y || y < x { return y }],
    [if x != x || x < y || x != 0 { return x }], and for two zeros the
    bitwise or of the arguments for [min], the bitwise and for [max]. *)
Definition f32_min (x y : float32) : float32 :=
  if f32_is_nan y || f32_lt y x then y
  else if f32_is_nan x || f32_lt x y || negb (f32_eq x f32_zero) then x
  else S754_zero (f32_signbit x || f32_signbit y).

Definition f32_max (x y : float32) : float32 :=
  if f32_is_nan y || f32_lt x y then y
  else if f32_is_nan x || f32_lt y x || negb (f32_eq x f32_zero) then x
  else S754_zero (f32_signbit x && f32_signbit y).

Record Measurements := {
  Min : float32;
  Max : float32;
  Sum : float32;
  Count : Z
}.

(** [AggregationResult]: its field [Measurements] is [Readings] here (the
    name is taken by the record above); a nil map is the empty map, a nil
    error is [None]. *)
Record AggregationResult := {
  Readings : gmap string Measurements;
  Error : option error
}.

Definition errorResult (e : error) : AggregationResult :=
  {| Readings := ∅; Error := Some e |}.
Definition readingsResult (readings : gmap string Measurements) : AggregationResult :=
  {| Readings := readings; Error := None |}.

(** ** The reader of a chunk

    [io.NewSectionReader(f, r.Begin, r.End-r.Begin)]: the bytes of the file
    from [off] up to [limit] or to the end of the file, where [limit] is
    [off + n] unless that overflows.  Reading at a negative offset fails. *)

Definition sectionLimit (off n : Z) : Z :=
  if off <=? int64_wrap (int64_max - n) then int64_wrap (n + off) else int64_max.

Definition sectionBytes (bytes : list ascii) (r : Range) : list ascii * option error :=
  let off := Begin r in
  let limit := sectionLimit off (int64_wrap (End r - Begin r)) in
  if limit <=? off then ([], None)
  else if off <? 0 then ([], Some ErrNegativeOffset)
  else
    let stop := Z.min limit (Z.of_nat (length bytes)) in
    (take (Z.to_nat (stop - off)) (drop (Z.to_nat off) bytes), None).

(** [bufio.NewScanner] with its default split function, [bufio.ScanLines],
    and its default limit on the size of a token: the lines of the input
    without their end-of-line marker (a newline, with one carriage return
    before it dropped), a last line without newline included when it is
    not empty.  A line of [MaxScanTokenSize] bytes or more stops the scan
    with [ErrTooLong].  [cur] is the line read so far, last byte first, and
    [len] its length. *)

Definition MaxScanTokenSize : Z := 64 * 1024.

Definition dropCR (cur : list ascii) : list ascii :=
  match cur with
  | c :: cur' => if byte_eqb c "013"%char then rev cur' else rev cur
  | [] => []
  end.

Fixpoint scanLines (cur : list ascii) (len : Z) (input : list ascii)
  : list (list ascii) * option error :=
  match input with
  | [] => (match cur with [] => [] | _ => [dropCR cur] end, None)
  | c :: input' =>
      if byte_eqb c MeasurementDelimeter then
        let '(tokens, err) := scanLines [] 0 input' in
        (dropCR cur :: tokens, err)
      else if MaxScanTokenSize <=? len + 1 then ([], Some ErrTooLong)
      else scanLines (c :: cur) (len + 1) input'
  end.

(** What [scanner.Scan] and [scanner.Bytes] yield over the chunk [r] of the
    file: the tokens, and the error that [scanner.Err] would report. *)
Definition scanChunk (fs : option (list ascii)) (r : Range)
  : list (list ascii) * option error :=
  match fs with
  | None =>
      if sectionLimit (Begin r) (int64_wrap (End r - Begin r)) <=? Begin r
      then ([], None) else ([], Some ErrInvalid)
  | Some bytes =>
      match sectionBytes bytes r with
      | (_, Some e) => ([], Some e)
      | (sec, None) => scanLines [] 0 sec
      end
  end.

(** ** [task] *)

(** [for { if buffer[pos] == StationDelimeter { break }; pos++ }]:
    [rest] is [buffer[pos:]]; indexing at [len(buffer)] panics. *)
Fixpoint scanDelimeter (rest : list ascii) (pos : Z) (len : Z) : outcome Z :=
  match rest with
  | [] => Panics (IndexOutOfRange pos len)
  | c :: rest' =>
      if byte_eqb c StationDelimeter then Returns pos
      else scanDelimeter rest' (int64_wrap (pos + 1)) len
  end.

Definition observe (readings : gmap string Measurements) (station : string)
    (m32 : float32) : gmap string Measurements :=
  match readings !! station with
  | Some v =>
      <[station := {| Min := f32_min (Min v) m32;
                      Max := f32_max (Max v) m32;
                      Sum := f32_add (Sum v) m32;
                      Count := int64_wrap (Count v + 1) |}]> readings
  | None =>
      <[station := {| Min := m32; Max := m32; Sum := m32; Count := 1 |}]> readings
  end.

Section Aggregator.

(** [strconv.ParseFloat(s, 32)] followed by the conversion to [float32]:
    the value, and the error when there is one. *)
Variable parseFloat : string -> float32 * option error.

(** The body of [for scanner.Scan() { ... }] on one token: the readings
    and the results sent on the channel so far go in, and come out
    updated, unless the body panics. *)
Definition processRecord (buffer : list ascii)
    (readings : gmap string Measurements) (sent : list AggregationResult)
  : outcome (gmap string Measurements * list AggregationResult) :=
  match scanDelimeter buffer 0 (Z.of_nat (length buffer)) with
  | Panics p => Panics p
  | Fails e => Fails e
  | Returns stationDelimeterPos =>
      let station :=
        string_of_list_ascii (take (Z.to_nat stationDelimeterPos) buffer) in
      let measurementStr :=
        string_of_list_ascii (drop (Z.to_nat (stationDelimeterPos + 1)) buffer) in
      let '(measurement, err) := parseFloat measurementStr in
      let sent' :=
        match err with
        | Some e => sent ++ [errorResult e]
        | None => sent
        end in
      let m32 := measurement in
      Returns (observe readings station m32, sent')
  end.

(** The scan loop: the results sent so far, and the readings at the end of
    the loop or the panic that ended it. *)
Fixpoint scanLoop (tokens : list (list ascii))
    (readings : gmap string Measurements) (sent : list AggregationResult)
  : list AggregationResult * outcome (gmap string Measurements) :=
  match tokens with
  | [] => (sent, Returns readings)
  | buffer :: tokens' =>
      match processRecord buffer readings sent with
      | Panics p => (sent, Panics p)
      | Fails e => (sent, Fails e)
      | Returns (readings', sent') => scanLoop tokens' readings' sent'
      end
  end.

(** [taskOn openErr tokens]: the task on a file that opens ([openErr] is
    [None]) or does not, whose scanner yields [tokens].  The error of the
    scanner is no argument: the source never reads it.  The result is
    every [AggregationResult] sent on the channel, in order, and how the
    task ended. *)
Definition taskOn (openErr : option error) (tokens : list (list ascii))
  : list AggregationResult * outcome unit :=
  let sent0 :=
    match openErr with
    | Some e => [errorResult e]
    | None => []
    end in
  match scanLoop tokens ∅ sent0 with
  | (sent, Panics p) => (sent, Panics p)
  | (sent, Fails e) => (sent, Fails e)
  | (sent, Returns readings) => (sent ++ [readingsResult readings], Returns tt)
  end.

Definition task (fs : option (list ascii)) (r : Range)
  : list AggregationResult * outcome unit :=
  taskOn (match fs with None => Some ErrOpen | Some _ => None end)
         (fst (scanChunk fs r)).

End Aggregator.

(** ** The merger of [run] *)

(** The combination of an entry [v] of the accumulator with the entry
    [measurements] of a worker, four assignments in the source. *)
Definition combine (v measurements : Measurements) : Measurements :=
  {| Min := f32_min (Min v) (Min measurements);
     Max := f32_max (Max v) (Max measurements);
     Sum := f32_add (Sum v) (Sum measurements);
     Count := int64_wrap (Count v + Count measurements) |}.

(** The body of [for station, measurements := range subreadings.Measurements]. *)
Definition mergeStation (station : string) (measurements : Measurements)
    (readings : gmap string Measurements) : gmap string Measurements :=
  match readings !! station with
  | Some v => <[station := combine v measurements]> readings
  | None =>
      <[station := {| Min := Min measurements;
                      Max := Max measurements;
                      Sum := Sum measurements;
                      Count := Count measurements |}]> readings
  end.

(** The order in which a map is ranged over is not specified in Go;
    [mergeReadings_lookup] below shows that it does not matter here. *)
Definition mergeReadings (readings subreadings : gmap string Measurements)
  : gmap string Measurements :=
  map_fold mergeStation readings subreadings.

(** [for i := int64(0); i < parallel; i++ { subreadings := <-aggregatorChannel; ... }]:
    [channel] holds the results in the order in which they arrive, [cnt]
    iterations are left.  The result is [None] when the loop waits for a
    result that never arrives; otherwise how the loop ended and the results
    it never received. *)
Fixpoint reduceLoop (cnt : nat) (channel : list AggregationResult)
    (readings : gmap string Measurements)
  : option (outcome (gmap string Measurements) * list AggregationResult) :=
  match cnt with
  | O => Some (Returns readings, channel)
  | S cnt' =>
      match channel with
      | [] => None
      | subreadings :: channel' =>
          match Error subreadings with
          | Some e => Some (Fails e, channel')
          | None =>
              reduceLoop cnt' channel' (mergeReadings readings (Readings subreadings))
          end
      end
  end.

(** ** [writeOutput] *)

(** [v.Sum / float32(v.Count)]. *)
Definition meanOf (v : Measurements) : float32 :=
  f32_div (Sum v) (f32_of_int (Count v)).

Definition string_le (a b : string) : Prop := String.leb a b = true.

Global Instance string_le_dec (a b : string) : Decision (string_le a b).
Proof. unfold string_le. apply _. Defined.

Section Output.

(** The verb [%.1f] of [fmt.Sprintf] on a [float32]. *)
Variable formatFloat : float32 -> string.

(** The body of [for i, station := range *stations]: [v] is the pointer
    found in the map, [None] when it is nil; [v.Sum] is read before [ok]
    is looked at. *)
Fixpoint writeEntries (numStations : Z) (i : Z) (stations : list string)
    (readings : gmap string Measurements) (buffer : string) : outcome string :=
  match stations with
  | [] => Returns buffer
  | station :: stations' =>
      let v := readings !! station in
      let ok := bool_decide (is_Some v) in
      match v with
      | None => Panics NilDereference
      | Some v =>
          let mean := meanOf v in
          if negb ok then Fails (ErrMissingEntry station)
          else
            let buffer :=
              (buffer ++ station ++ "=" ++ formatFloat (Min v) ++ "/"
                 ++ formatFloat mean ++ "/" ++ formatFloat (Max v))%string in
            let buffer :=
              if i <? numStations - 1 then (buffer ++ ", ")%string else buffer in
            writeEntries numStations (i + 1) stations' readings buffer
      end
  end.

Definition writeOutput (stations : list string)
    (readings : gmap string Measurements) : outcome string :=
  let numStations := Z.of_nat (length stations) in
  match writeEntries numStations 0 stations readings "{" with
  | Returns buffer => Returns (buffer ++ "}")%string
  | Panics p => Panics p
  | Fails e => Fails e
  end.

End Output.

(** ** [run] *)

(** The ways in which the results that the tasks send can arrive on the
    channel: every interleaving that keeps the order of each task. *)
Inductive interleaving {A : Type} : list (list A) -> list A -> Prop :=
  | interleaving_done (sources : list (list A)) :
      Forall (fun l => l = []) sources -> interleaving sources []
  | interleaving_next (before : list (list A)) (x : A) (l : list A)
      (after : list (list A)) (out : list A) :
      interleaving (before ++ l :: after) out ->
      interleaving (before ++ (x :: l) :: after) (x :: out).

Section Run.

Variable parseFloat : string -> float32 * option error.
Variable formatFloat : float32 -> string.

(** What the goroutines started by [run] send: task [i] works on
    [ranges[i]], for [i] below [parallel]. *)
Definition spawned (fs : option (list ascii)) (ranges : list Range)
    (parallel : Z) : list (list AggregationResult * outcome unit) :=
  map (task parseFloat fs) (take (Z.to_nat parallel) ranges).

Definition arrives (fs : option (list ascii)) (ranges : list Range)
    (parallel : Z) (channel : list AggregationResult) : Prop :=
  interleaving (map fst (spawned fs ranges parallel)) channel.

(** The stations of the final map, sorted as by [sort.Strings]. *)
Definition sortedStations (readings : gmap string Measurements) : list string :=
  merge_sort string_le (map fst (map_to_list readings)).

(** [run] up to the call of [writeOutput], on the main goroutine, when the
    results arrive in the order of [channel]: the sorted stations and the
    merged readings.  [make(chan AggregationResult, parallel)] panics on a
    negative size; memory is taken to be large enough for the channel, as
    it is for the maps and the slices of the program. *)
Definition aggregate (fuel : nat) (fs : option (list ascii)) (parallel : Z)
    (channel : list AggregationResult)
  : option (outcome (list string * gmap string Measurements)) :=
  match determineRanges fuel fs parallel MeasurementDelimeter with
  | None => None
  | Some (Panics p) => Some (Panics p)
  | Some (Fails e) => Some (Fails e)
  | Some (Returns ranges) =>
      if parallel <? 0 then Some (Panics (ChanSizeOutOfRange parallel))
      else
        match reduceLoop (Z.to_nat parallel) channel ∅ with
        | None => None
        | Some (Panics p, _) => Some (Panics p)
        | Some (Fails e, _) => Some (Fails e)
        | Some (Returns readings, _) =>
            Some (Returns (sortedStations readings, readings))
        end
  end.

Definition run (fuel : nat) (fs : option (list ascii)) (parallel : Z)
    (channel : list AggregationResult) : option (outcome string) :=
  match aggregate fuel fs parallel channel with
  | None => None
  | Some (Panics p) => Some (Panics p)
  | Some (Fails e) => Some (Fails e)
  | Some (Returns (stations, readings)) =>
      Some (writeOutput formatFloat stations readings)
  end.

End Run.

(** ** Shapes of a partition *)

(** Every range begins where the one before it ends, the first at [start]. *)
Fixpoint chained (start : Z) (ranges : list Range) : Prop :=
  match ranges with
  | [] => True
  | r :: ranges' => Begin r = start /\ chained (End r) ranges'
  end.

(** The byte before offset [e] is the delimiter. *)
Definition afterDelimiter (file : list ascii) (delim : ascii) (e : Z) : Prop :=
  1 <= e /\ file !! Z.to_nat (e - 1) = Some delim.

(** What [determineRanges] gives for the ranges before the last one: none
    is inverted, and an end that lies in the file is one past a
    delimiter. *)
Definition adjusted (file : list ascii) (delim : ascii) (r : Range) : Prop :=
  Begin r <= End r /\ 1 <= End r /\
  (End r <= Z.of_nat (length file) -> afterDelimiter file delim (End r)).

(** The range that [determineRanges] appends last, after [ranges] that
    chain from [start]. *)
Definition lastRange (file : list ascii) (start : Z) (ranges : list Range) : Range :=
  {| Begin := default start (End <$> last ranges);
     End := Z.of_nat (length file) |}.

(** ** The order of [min] and [max] on [float32] *)

(** The place of a [float32] that is no NaN in that order: by sign, then
    exponent, then mantissa, the negative zero before the positive one. *)
Definition f32_rank (x : float32) : Z * Z * Z :=
  match x with
  | S754_nan => (0, 0, 0)
  | S754_infinity true => (-3, 0, 0)
  | S754_finite true m e => (-2, - e, - Z.pos m)
  | S754_zero true => (-1, 0, 0)
  | S754_zero false => (1, 0, 0)
  | S754_finite false m e => (2, e, Z.pos m)
  | S754_infinity false => (3, 0, 0)
  end.

Definition rank_lt (a b : Z * Z * Z) : Prop :=
  let '(a1, a2, a3) := a in
  let '(b1, b2, b3) := b in
  a1 < b1 \/ (a1 = b1 /\ (a2 < b2 \/ (a2 = b2 /\ a3 < b3))).

Definition f32_before (x y : float32) : Prop := rank_lt (f32_rank x) (f32_rank y).

(** ** Statistics without the sum *)

(** The minimum, the maximum and the count of an entry. *)
Definition statistics (v : Measurements) : float32 * float32 * Z :=
  (Min v, Max v, Count v).

Definition combineStatistics (a b : float32 * float32 * Z) : float32 * float32 * Z :=
  (f32_min a.1.1 b.1.1, f32_max a.1.2 b.1.2, int64_wrap (a.2 + b.2)).

Definition mergeStatistics (a b : gmap string (float32 * float32 * Z))
  : gmap string (float32 * float32 * Z) :=
  union_with (fun x y => Some (combineStatistics x y)) a b.

(** Two maps with the same stations and, for each, the same minimum,
    maximum and count. *)
Definition sameStatistics (a b : gmap string Measurements) : Prop :=
  forall station, statistics <$> (a !! station) = statistics <$> (b !! station).

(** ** Observations of a worker *)

Definition observeAll (readings : gmap string Measurements)
    (observations : list (string * float32)) : gmap string Measurements :=
  foldl (fun acc o => observe acc o.1 o.2) readings observations.

(** The values observed for a station, in order. *)
Definition valuesOf (station : string) (observations : list (string * float32))
  : list float32 :=
  snd <$> filter (fun o => o.1 = station) observations.

(** The statistics of a list of observations and of a list of maps, merged
    from the right. *)
Definition observedStatistics (observations : list (string * float32))
  : gmap string (float32 * float32 * Z) :=
  foldr (fun o acc => mergeStatistics {[o.1 := (o.2, o.2, 1)]} acc) ∅ observations.

Definition mergeAllStatistics (l : list (gmap string (float32 * float32 * Z)))
  : gmap string (float32 * float32 * Z) :=
  foldr mergeStatistics ∅ l.

(** A result without error. *)
Definition succeeded (r : AggregationResult) : Prop := Error r = None.

(** ** Well-formed files *)

(** The lines that the scanner yields over [input], and the bytes that the
    task of a range reads. *)
Definition linesOf (input : list ascii) : list (list ascii) :=
  fst (scanLines [] 0 input).

Definition chunkOf (file : list ascii) (r : Range) : list ascii :=
  fst (sectionBytes file r).

Section WellFormed.

Variable parseFloat : string -> float32 * option error.

(** The station and the value of a record that has a field delimiter and
    whose value parses. *)
Definition parseRecord (buffer : list ascii) : option (string * float32) :=
  match scanDelimeter buffer 0 (Z.of_nat (length buffer)) with
  | Returns pos =>
      match parseFloat (string_of_list_ascii (drop (Z.to_nat (pos + 1)) buffer)) with
      | (m32, None) => Some (string_of_list_ascii (take (Z.to_nat pos) buffer), m32)
      | (_, Some _) => None
      end
  | _ => None
  end.

Definition observationsOf (tokens : list (list ascii)) : list (string * float32) :=
  omap parseRecord tokens.

(** A file is well formed when the scanner reads it to its end and every
    line is such a record: every line is shorter than the largest token,
    has a field delimiter, and has a value that parses. *)
Definition wellFormed (file : list ascii) : Prop :=
  snd (scanLines [] 0 file) = None /\
  Forall (fun buffer => is_Some (parseRecord buffer)) (linesOf file).

End WellFormed.

(** ** Orders of arrival *)

(** The arrival order in which the results of each task arrive before those
    of the next. *)
Definition inOrder (parseFloat : string -> float32 * option error)
    (fs : option (list ascii)) (ranges : list Range) (parallel : Z)
  : list AggregationResult :=
  concat (map fst (spawned parseFloat fs ranges parallel)).

Definition wholeFile (file : list ascii) : list Range :=
  [{| Begin := 0; End := Z.of_nat (length file) |}].

(** ** Inputs for the examples *)

Definition bytes (s : string) : list ascii := list_ascii_of_string s.
Definition nl : string := String MeasurementDelimeter EmptyString.

(** An instance of [parseFloat] for the examples below.  On [NaN] and on a
    plain decimal literal (an optional sign, digits, an optional point and
    digits) whose digits read as an integer of at most [2 ^ 24] with at most
    ten of them after the point, it is the value that
    [strconv.ParseFloat(s, 32)] returns: both the integer and the power of
    ten are [float32] values, and their quotient is rounded once.  On any
    other input it answers with a syntax error and the value zero, which is
    what [strconv.ParseFloat] does on an input that is no number.  The
    other inputs that [strconv.ParseFloat] accepts (exponents, hexadecimal
    digits, infinities, a missing integer or fraction part, more digits)
    are outside this instance, and the examples use none of them. *)

Definition digitValue (c : ascii) : option Z :=
  let n := Z.of_nat (nat_of_ascii c) in
  if (48 <=? n) && (n <=? 57) then Some (n - 48) else None.

Fixpoint readDigits (s : list ascii) (acc : Z) (cnt : Z) : Z * Z * list ascii :=
  match s with
  | c :: s' =>
      match digitValue c with
      | Some d => readDigits s' (10 * acc + d) (cnt + 1)
      | None => (acc, cnt, s)
      end
  | [] => (acc, cnt, [])
  end.

Definition parseUnsigned (s : list ascii) : option (Z * Z) :=
  let '(ip, ni, rest) := readDigits s 0 0 in
  if ni =? 0 then None
  else
    match rest with
    | [] => Some (ip, 0)
    | c :: rest' =>
        if byte_eqb c "."%char then
          let '(m, nf, rest'') := readDigits rest' ip 0 in
          match rest'' with
          | [] => if nf =? 0 then None else Some (m, nf)
          | _ => None
          end
        else None
    end.

Definition parseDecimal (s : string) : float32 * option error :=
  if String.eqb s "NaN" then (S754_nan, None)
  else
    let '(neg, digits) :=
      match list_ascii_of_string s with
      | c :: rest =>
          if byte_eqb c "-"%char then (true, rest)
          else if byte_eqb c "+"%char then (false, rest)
          else (false, c :: rest)
      | [] => (false, [])
      end in
    match parseUnsigned digits with
    | Some (m, nf) =>
        if (m <=? 2 ^ 24) && (nf <=? 10) then
          let v := f32_div (f32_of_int m) (f32_of_int (10 ^ nf)) in
          (if neg then SFopp v else v, None)
        else (f32_zero, Some (ErrSyntax s))
    | None => (f32_zero, Some (ErrSyntax s))
    end.

(** An instance of [formatFloat] for the examples: the verb [%.1f] prints
    the exact value rounded to one digit after the point, to nearest and a
    half to even. *)

Definition roundHalfEven (num den : Z) : Z :=
  let q := num / den in
  match Z.compare (2 * (num mod den)) den with
  | Lt => q
  | Gt => q + 1
  | Eq => if Z.even q then q else q + 1
  end.

Definition tenths (m : positive) (e : Z) : Z :=
  if 0 <=? e then 10 * Z.pos m * 2 ^ e
  else roundHalfEven (10 * Z.pos m) (2 ^ (- e)).

Definition formatTenths (x : float32) : string :=
  match x with
  | S754_nan => "NaN"
  | S754_infinity s => if s then "-Inf" else "+Inf"
  | S754_zero s => if s then "-0.0" else "0.0"
  | S754_finite s m e =>
      let t := tenths m e in
      ((if s then "-" else "") ++ pretty (t / 10) ++ "." ++ pretty (t mod 10))%string
  end.

(** The example of the specification. *)
Definition specExample : list ascii :=
  bytes ("A;10.0" ++ nl ++ "B;-5.5" ++ nl ++ "A;20.0" ++ nl).

(** Six records of four bytes each, 24 bytes. *)
Definition sixRecords : list ascii :=
  bytes ("a;1" ++ nl ++ "a;1" ++ nl ++ "a;1" ++ nl
         ++ "a;1" ++ nl ++ "a;1" ++ nl ++ "a;1" ++ nl).

(** One record without a newline after it. *)
Definition oneRecord : list ascii := bytes "A;1.0".


(** The entry of a station seen once, with the value [v]. *)
Definition once (v : float32) : Measurements :=
  {| Min := v; Max := v; Sum := v; Count := 1 |}.

(** Results of three workers that saw the station [A] once each, with the
    values [2 ^ 24], 1 and 1. *)
Definition sawLarge : AggregationResult :=
  readingsResult {[ "A"%string := once (f32_of_int 16777216) ]}.
Definition sawOne : AggregationResult :=
  readingsResult {[ "A"%string := once (f32_of_int 1) ]}.

(** A file with the station [A] three times, with the values [2 ^ 24], 1
    and 1. *)
Definition largeAndSmall : list ascii :=
  bytes ("A;16777216" ++ nl ++ "A;1.0" ++ nl ++ "A;1.0" ++ nl).

Definition twoHalves : list Range :=
  [{| Begin := 0; End := 11 |}; {| Begin := 11; End := 23 |}].

(** ** Offsets and ranges *)

(** The offset [p] lies in the range [r]. *)
Definition inRange (p : Z) (r : Range) : Prop := Begin r <= p < End r.

(** Two records of four bytes each and a third without newline. *)
Definition threeRecords : list ascii :=
  bytes ("a;1" ++ nl ++ "b;2" ++ nl ++ "c;3").

(** ** What a record contributes *)

Section Records.

Variable parseFloat : string -> float32 * option error.

(** The station of a record with a field delimiter and the value that
    [strconv.ParseFloat] returns for it, with or without an error. *)
Definition recordValue (buffer : list ascii) : option (string * float32) :=
  match scanDelimeter buffer 0 (Z.of_nat (length buffer)) with
  | Returns pos =>
      Some (string_of_list_ascii (take (Z.to_nat pos) buffer),
            fst (parseFloat (string_of_list_ascii (drop (Z.to_nat (pos + 1)) buffer))))
  | _ => None
  end.

(** The error of [strconv.ParseFloat] on the value of such a record. *)
Definition recordError (buffer : list ascii) : option error :=
  match scanDelimeter buffer 0 (Z.of_nat (length buffer)) with
  | Returns pos =>
      snd (parseFloat (string_of_list_ascii (drop (Z.to_nat (pos + 1)) buffer)))
  | _ => None
  end.

End Records.

(** ** What the formatter writes for a station *)

(** The text of the entry of a station that the map holds:
    [fmt.Sprintf("%s=%.1f/%.1f/%.1f", station, v.Min, mean, v.Max)]. *)
Definition formatEntry (formatFloat : float32 -> string)
    (readings : gmap string Measurements) (station : string) : string :=
  match readings !! station with
  | Some v =>
      (station ++ "=" ++ formatFloat (Min v) ++ "/"
         ++ formatFloat (meanOf v) ++ "/" ++ formatFloat (Max v))%string
  | None => ""%string
  end.

(* ================================================================== *)
(** * Properties *)

(** ** Machine integers *)

Lemma int64_wrap_id z : int64_min <= z <= int64_max -> int64_wrap z = z.
Proof.
  unfold int64_wrap, int64_min, int64_max. intros H.
  rewrite Z.mod_small; lia.
Qed.

Lemma byte_eqb_eq a b : byte_eqb a b = true <-> a = b.
Proof. apply Ascii.eqb_eq. Qed.

Lemma byte_eqb_neq a b : byte_eqb a b = false <-> a <> b.
Proof. apply Ascii.eqb_neq. Qed.

(** ** The loop that adjusts an end *)

Section AdjustEnd.

Variable file : list ascii.
Variable delim : ascii.

Let len : Z := Z.of_nat (length file).

Lemma readByte_inside f b pos c :
  content f = file -> 0 <= pos -> file !! Z.to_nat pos = Some c ->
  readByte (seekStart f pos) b = ({| content := file; offset := pos + 1 |}, c).
Proof.
  intros Hf Hpos Hc. unfold seekStart, readByte.
  destruct (Z.ltb_spec pos 0); [lia|]. simpl. by rewrite Hf, Hc.
Qed.

Lemma readByte_outside f b pos :
  content f = file -> len <= pos ->
  readByte (seekStart f pos) b = ({| content := file; offset := pos |}, b).
Proof.
  intros Hf Hpos. unfold seekStart, readByte.
  destruct (Z.ltb_spec pos 0); [unfold len in *; lia|]. simpl.
  rewrite Hf. rewrite lookup_ge_None_2; [done|]. unfold len in *. lia.
Qed.

Lemma readByte_content f b : content (fst (readByte f b)) = content f.
Proof. unfold readByte. by destruct (content f !! _). Qed.

Lemma seekStart_content f pos : content (seekStart f pos) = content f.
Proof. unfold seekStart. by destruct (pos <? 0). Qed.

(** A byte read is a byte of the file, or the buffer is left as it was. *)
Lemma readByte_byte f b :
  content f = file -> snd (readByte f b) = b \/ snd (readByte f b) ∈ file.
Proof.
  intros Hf. unfold readByte. rewrite Hf.
  destruct (file !! _) eqn:E; simpl; [right|by left].
  by eapply list_elem_of_lookup_2.
Qed.

(** Downwards from [e] inside the file, the loop stops one past the last
    delimiter at or before [e]. *)
Lemma adjustEnd_down fuel : forall e f b d,
  content f = file -> 0 <= d <= e -> e < len -> e < int64_max ->
  file !! Z.to_nat d = Some delim ->
  (forall j, d < j <= e -> file !! Z.to_nat j <> Some delim) ->
  (Z.to_nat (e - d) < fuel)%nat ->
  adjustEnd fuel delim f b e
  = Some ({| content := file; offset := d + 1 |}, delim, d + 1).
Proof.
  induction fuel as [|fuel IH]; intros e f b d Hf Hd He He' Hdel Hno Hfuel; [lia|].
  simpl. destruct (decide (e = d)) as [->|Hne].
  - rewrite (readByte_inside f b d delim) by (done || lia).
    assert (byte_eqb delim delim = true) as -> by by apply byte_eqb_eq.
    rewrite int64_wrap_id; [done|]. unfold int64_min, int64_max in *. lia.
  - destruct (lookup_lt_is_Some_2 file (Z.to_nat e)) as [c Hc]; [unfold len in *; lia|].
    rewrite (readByte_inside f b e c) by (done || lia).
    assert (byte_eqb c delim = false) as ->.
    { apply byte_eqb_neq. intros ->. apply (Hno e); [lia|done]. }
    rewrite int64_wrap_id by (unfold int64_min, int64_max in *; lia).
    apply IH; try done; try lia.
    intros j Hj. apply Hno. lia.
Qed.

(** At or past the end of the file nothing is read: with the delimiter
    still in the buffer the loop stops at once, one past where it
    started. *)
Lemma adjustEnd_stale fuel e f :
  content f = file -> len <= e -> e < int64_max ->
  adjustEnd (S fuel) delim f delim e
  = Some ({| content := file; offset := e |}, delim, e + 1).
Proof.
  intros Hf He He'. simpl. rewrite readByte_outside by done.
  assert (byte_eqb delim delim = true) as -> by by apply byte_eqb_eq.
  rewrite int64_wrap_id; [done|]. unfold int64_min, int64_max in *.
  unfold len in *. lia.
Qed.

(** Downwards from [e] with no delimiter at or before [e], the loop gets
    below the start of the file: the end is [-1] and the descriptor stays
    at offset 1, after the first byte. *)
Lemma adjustEnd_underflow fuel : forall e f b,
  content f = file -> 0 <= e < len -> e < int64_max ->
  (forall j, 0 <= j <= e -> file !! Z.to_nat j <> Some delim) ->
  exists b',
    b' <> delim /\
    adjustEnd (fuel + S (Z.to_nat e)) delim f b e
    = adjustEnd fuel delim {| content := file; offset := 1 |} b' (-1).
Proof.
  intros e. remember (Z.to_nat e) as k eqn:Hk. revert e Hk.
  induction k as [|k IH]; intros e Hk f b Hf He He' Hno.
  - assert (e = 0) as -> by lia.
    destruct (lookup_lt_is_Some_2 file 0%nat) as [c Hc]; [unfold len in *; lia|].
    exists c. split.
    { intros ->. apply (Hno 0); [lia|done]. }
    rewrite Nat.add_1_r. simpl.
    rewrite (readByte_inside f b 0 c) by (done || lia).
    assert (byte_eqb c delim = false) as ->.
    { apply byte_eqb_neq. intros ->. apply (Hno 0); [lia|done]. }
    done.
  - destruct (lookup_lt_is_Some_2 file (Z.to_nat e)) as [c Hc]; [unfold len in *; lia|].
    destruct (IH (e - 1) ltac:(lia) {| content := file; offset := e + 1 |} c)
      as (b' & Hb' & Heq); try done; try lia.
    { intros j Hj. apply Hno. lia. }
    exists b'. split; [done|].
    rewrite Nat.add_succ_r. simpl.
    rewrite (readByte_inside f b e c) by (done || lia).
    assert (byte_eqb c delim = false) as ->.
    { apply byte_eqb_neq. intros ->. apply (Hno e); [lia|done]. }
    rewrite int64_wrap_id by (unfold int64_min, int64_max in *; lia).
    exact Heq.
Qed.

(** Below the start of the file every [Seek] fails, so each [Read] takes
    the next byte of the file: with the end at [-k] and the descriptor at
    offset [k], the loop stops at the first delimiter at or after [k]. *)
Lemma adjustEnd_forward fuel : forall k f b d,
  content f = file -> offset f = k -> 1 <= k <= d -> d < len ->
  d < int64_max ->
  file !! Z.to_nat d = Some delim ->
  (forall j, k <= j < d -> file !! Z.to_nat j <> Some delim) ->
  (Z.to_nat (d - k) < fuel)%nat ->
  adjustEnd fuel delim f b (- k)
  = Some ({| content := file; offset := d + 1 |}, delim, 1 - d).
Proof.
  induction fuel as [|fuel IH]; intros k f b d Hf Hoff Hk Hd Hd' Hdel Hno Hfuel; [lia|].
  simpl. unfold seekStart. destruct (Z.ltb_spec (- k) 0); [|lia].
  unfold readByte. rewrite Hf, Hoff.
  destruct (decide (k = d)) as [->|Hne].
  - rewrite Hdel. assert (byte_eqb delim delim = true) as -> by by apply byte_eqb_eq.
    rewrite int64_wrap_id by (unfold int64_min, int64_max in *; lia).
    do 2 f_equal. lia.
  - destruct (lookup_lt_is_Some_2 file (Z.to_nat k)) as [c Hc]; [unfold len in *; lia|].
    rewrite Hc.
    assert (byte_eqb c delim = false) as ->.
    { apply byte_eqb_neq. intros ->. apply (Hno k); [lia|done]. }
    rewrite int64_wrap_id by (unfold int64_min, int64_max in *; lia).
    replace (- k - 1) with (- (k + 1)) by lia.
    apply IH; try done; try lia.
    intros j Hj. apply Hno. lia.
Qed.

(** Without a delimiter in the file or in the buffer the loop never
    stops. *)
Lemma adjustEnd_diverges fuel : forall f b e,
  content f = file -> delim ∉ file -> b <> delim ->
  adjustEnd fuel delim f b e = None.
Proof.
  induction fuel as [|fuel IH]; intros f b e Hf Hno Hb; [done|].
  simpl. destruct (readByte (seekStart f e) b) as [f1 b1] eqn:E.
  assert (content f1 = file) as Hf1.
  { change f1 with (fst (f1, b1)). rewrite <- E.
    by rewrite readByte_content, seekStart_content. }
  assert (b1 <> delim) as Hb1.
  { destruct (readByte_byte (seekStart f e) b) as [H|H].
    - by rewrite seekStart_content.
    - rewrite E in H. simpl in H. by subst.
    - rewrite E in H. simpl in H. by intros ->. }
  assert (byte_eqb b1 delim = false) as -> by by apply byte_eqb_neq.
  by apply IH.
Qed.

End AdjustEnd.

(** ** The ranges of [determineRanges] *)

Section Partition.

Variable file : list ascii.
Variable delim : ascii.

Let len : Z := Z.of_nat (length file).

(** The last delimiter at or before [e], when there is one from [d0] on. *)
Lemma last_delimiter (k : nat) : forall e d0,
  0 <= d0 <= e -> Z.to_nat (e - d0) = k ->
  file !! Z.to_nat d0 = Some delim ->
  exists d, d0 <= d <= e /\ file !! Z.to_nat d = Some delim /\
            forall j, d < j <= e -> file !! Z.to_nat j <> Some delim.
Proof.
  induction k as [|k IH]; intros e d0 Hd Hk Hdel.
  - exists d0. split; [lia|]. split; [done|]. intros j Hj. lia.
  - destruct (decide (file !! Z.to_nat e = Some delim)) as [He|He].
    + exists e. split; [lia|]. split; [done|]. intros j Hj. lia.
    + destruct (IH (e - 1) d0) as (d & Hd1 & Hd2 & Hd3); [lia|lia|done|].
      exists d. split; [lia|]. split; [done|].
      intros j Hj. destruct (decide (j = e)) as [->|]; [done|]. apply Hd3. lia.
Qed.

(** The first range: with a delimiter among the first [approxSize + 1]
    bytes, its end is one past the last of them. *)
Lemma adjustEnd_first fuel f b approxSize d0 :
  content f = file -> 0 <= d0 <= approxSize -> approxSize < len ->
  len < int64_max ->
  file !! Z.to_nat d0 = Some delim ->
  (Z.to_nat approxSize < fuel)%nat ->
  exists f1 e1,
    adjustEnd fuel delim f b approxSize = Some (f1, delim, e1) /\
    content f1 = file /\ e1 <= approxSize + 1 /\
    afterDelimiter file delim e1.
Proof.
  intros Hf Hd0 Ha Hlen Hdel Hfuel.
  destruct (last_delimiter (Z.to_nat (approxSize - d0)) approxSize d0)
    as (d & Hd1 & Hd2 & Hd3); [lia|done|done|].
  exists {| content := file; offset := d + 1 |}, (d + 1).
  split; [|split; [done|split; [lia|]]].
  - apply adjustEnd_down; try done; lia.
  - split; [lia|]. by replace (d + 1 - 1) with d by lia.
Qed.

(** A middle range that begins at [p]: its end is at least [p], and one
    past a delimiter when it lies in the file. *)
Lemma adjustEnd_middle fuel f p approxSize :
  content f = file -> 1 <= p -> 1 <= approxSize ->
  (p <= len -> afterDelimiter file delim p) ->
  p + approxSize < int64_max ->
  (Z.to_nat approxSize + 1 < fuel)%nat ->
  exists f1 e1,
    adjustEnd fuel delim f delim (p + approxSize) = Some (f1, delim, e1) /\
    content f1 = file /\ p <= e1 <= p + approxSize + 1 /\ 1 <= e1 /\
    (e1 <= len -> afterDelimiter file delim e1).
Proof.
  intros Hf Hp Ha Hprev Hbound Hfuel.
  destruct (Z.lt_ge_cases (p + approxSize) len) as [Hin|Hout].
  - destruct Hprev as [_ Hprev]; [lia|].
    destruct (last_delimiter (Z.to_nat (p + approxSize - (p - 1)))
                (p + approxSize) (p - 1))
      as (d & Hd1 & Hd2 & Hd3); [lia|done|done|].
    exists {| content := file; offset := d + 1 |}, (d + 1).
    split; [|split; [done|split; [lia|split; [lia|]]]].
    + apply adjustEnd_down; try done; lia.
    + intros _. split; [lia|]. by replace (d + 1 - 1) with d by lia.
  - destruct fuel as [|fuel]; [lia|].
    exists {| content := file; offset := p + approxSize |}, (p + approxSize + 1).
    split; [|split; [done|split; [lia|split; [lia|]]]].
    + by apply adjustEnd_stale.
    + unfold len in *. lia.
Qed.

Lemma chained_app start ranges1 ranges2 e :
  chained start ranges1 ->
  (default start (End <$> last ranges1)) = e ->
  chained e ranges2 ->
  chained start (ranges1 ++ ranges2).
Proof.
  revert start. induction ranges1 as [|r rs IH]; intros start H1 He H2.
  - simpl in *. by subst.
  - destruct H1 as [Hb H1]. split; [done|]. apply IH; [done| |done].
    destruct rs as [|r' rs']; [exact He|].
    rewrite last_cons_cons in He.
    destruct (last (r' :: rs')) eqn:E; [exact He|by apply last_None in E].
Qed.

(** The middle loop, [cnt] ranges from a list whose last range ends at
    [p]: it returns, and adds [cnt] adjusted ranges that chain from [p]. *)
Lemma middleRanges_spec fuel approxSize (cnt : nat) : forall i f ranges rlast,
  content f = file -> 1 <= approxSize ->
  (Z.to_nat approxSize + 1 < fuel)%nat ->
  Z.of_nat (length ranges) = i ->
  last ranges = Some rlast ->
  1 <= End rlast ->
  (End rlast <= len -> afterDelimiter file delim (End rlast)) ->
  End rlast + Z.of_nat cnt * (approxSize + 1) < int64_max ->
  i + Z.of_nat cnt < int64_max ->
  exists f1 added,
    middleRanges fuel delim approxSize cnt i f delim ranges
    = Some (Returns (f1, delim, ranges ++ added)) /\
    length added = cnt /\
    chained (End rlast) added /\
    Forall (adjusted file delim) added /\
    Forall (fun r => End r <= End rlast + Z.of_nat cnt * (approxSize + 1)) added.
Proof.
  induction cnt as [|cnt IH]; intros i f ranges rlast Hf Ha Hfuel Hi Hlast Hp Hprev Hb Hib.
  - exists f, []. rewrite app_nil_r. simpl. done.
  - simpl.
    assert (ranges !! Z.to_nat (i - 1) = Some rlast) as ->.
    { rewrite last_lookup in Hlast. rewrite <- Hlast. f_equal. lia. }
    destruct (adjustEnd_middle fuel f (End rlast) approxSize)
      as (f1 & e1 & Hadj & Hf1 & He1 & He1' & He1''); try done; try lia.
    rewrite int64_wrap_id by (unfold int64_min, int64_max in *; lia).
    rewrite Hadj.
    rewrite int64_wrap_id by (unfold int64_min, int64_max in *; lia).
    set (middle := {| Begin := End rlast; End := e1 |}).
    destruct (IH (i + 1) f1 (ranges ++ [middle]) middle)
      as (f2 & added & Hmid & Hlen & Hch & Hall & Hends); try done.
    + rewrite length_app. simpl. lia.
    + by rewrite last_snoc.
    + simpl. nia.
    + lia.
    + exists f2, (middle :: added). rewrite Hmid.
      split; [by rewrite <- app_assoc|]. split; [simpl; lia|].
      split; [done|]. split.
      * constructor; [|done].
        unfold adjusted. simpl. split; [lia|]. split; [lia|done].
      * constructor; [simpl; nia|].
        eapply Forall_impl; [exact Hends|]. simpl. intros r Hr. nia.
Qed.

(** With at least two workers, no more workers than bytes, and a
    delimiter among the first [approxSize + 1] bytes, [determineRanges]
    returns: [n] ranges that chain from 0, the last one ending at the
    length of the file, the others adjusted. *)
Lemma determineRanges_returns fuel n d0 :
  2 <= n <= len -> len < 2 ^ 62 ->
  0 <= d0 <= len `quot` n -> file !! Z.to_nat d0 = Some delim ->
  (Z.to_nat (len `quot` n) + 1 < fuel)%nat ->
  exists ranges rlast,
    determineRanges fuel (Some file) n delim
    = Some (Returns (ranges ++ [{| Begin := End rlast; End := len |}])) /\
    Z.of_nat (length ranges) = n - 1 /\
    last ranges = Some rlast /\
    chained 0 ranges /\
    Forall (adjusted file delim) ranges /\
    Forall (fun r => End r <= 2 * len) ranges.
Proof.
  intros Hn Hlen Hd0 Hdel Hfuel.
  set (approxSize := len `quot` n) in *.
  assert (1 <= approxSize /\ n * approxSize <= len) as [Ha1 Ha2].
  { unfold approxSize. rewrite Z.quot_div_nonneg by lia. split.
    - apply Z.div_le_lower_bound; lia.
    - apply Z.mul_div_le. lia. }
  assert (approxSize < len) as Ha3 by nia.
  unfold determineRanges.
  change (offset (seekEnd (openFile file))) with len.
  destruct (Z.eqb_spec n 1); [lia|]. destruct (Z.eqb_spec n 0); [lia|].
  fold approxSize. destruct (Z.eqb_spec approxSize 0); [lia|].
  destruct (adjustEnd_first fuel (seekEnd (openFile file)) "000"%char
              approxSize d0)
    as (f1 & e0 & Hadj & Hf1 & He0 & Haft); try done; try lia.
  { fold len. unfold int64_max. lia. }
  rewrite Hadj.
  change (lastEnd [{| Begin := 0; End := e0 |}]) with (Returns (A:=Z) e0).
  cbv beta iota.
  assert (1 <= e0) as He0' by apply Haft.
  destruct (Z.ltb_spec e0 0); [lia|].
  set (first := {| Begin := 0; End := e0 |}).
  rewrite int64_wrap_id by (unfold int64_min, int64_max; lia).
  destruct (middleRanges_spec fuel approxSize (Z.to_nat (n - 1 - 1)) 1 f1 [first] first)
    as (f2 & added & Hmid & Hlenadd & Hch & Hall & Hends); try done; try lia.
  { simpl. unfold int64_max. nia. }
  { unfold int64_max. lia. }
  rewrite Hmid.
  assert (exists rlast, last ([first] ++ added) = Some rlast) as [rlast Hrl].
  { destruct (last ([first] ++ added)) eqn:E; [by eexists|].
    apply last_None in E. done. }
  unfold lastEnd. rewrite Hrl.
  exists ([first] ++ added), rlast.
  split; [done|]. split; [rewrite length_app; simpl; lia|]. split; [done|].
  split; [|split].
  - simpl. split; [done|]. done.
  - constructor; [|done]. unfold adjusted. simpl.
    split; [lia|]. split; [lia|]. done.
  - constructor; [simpl; nia|].
    eapply Forall_impl; [exact Hends|]. simpl. intros r Hr. nia.
Qed.

End Partition.

(** ** float32: the order of [min] and [max] *)

Lemma f32_is_nan_true x : f32_is_nan x = true <-> x = S754_nan.
Proof.
  unfold f32_is_nan, f32_eq, SFeqb. destruct x as [s|s| |s m e]; simpl.
  - done.
  - destruct s; done.
  - done.
  - destruct s; rewrite Z.compare_refl;
      change (Pos.compare_cont Eq m m) with (Pos.compare m m);
      rewrite Pos.compare_refl; done.
Qed.

Lemma f32_nan_dec (x : float32) : {x = S754_nan} + {x <> S754_nan}.
Proof. destruct x; (by left) || (by right). Qed.

Lemma f32_rank_inj x y :
  x <> S754_nan -> y <> S754_nan -> f32_rank x = f32_rank y -> x = y.
Proof.
  intros Hx Hy. destruct x as [[]|[]| |[] mx ex], y as [[]|[]| |[] my ey]; simpl;
    try done; intros [= ]; f_equal; lia.
Qed.

Ltac compare_cases :=
  repeat match goal with
  | |- context [Z.compare ?a ?b] => destruct (Z.compare_spec a b)
  | |- context [Pos.compare_cont Eq ?a ?b] =>
      change (Pos.compare_cont Eq a b) with (Pos.compare a b);
      destruct (Pos.compare_spec a b)
  end.

Ltac rank_cases :=
  first [ left; split; [simpl; lia | reflexivity]
        | right; split; [simpl; lia | reflexivity]
        | exfalso; lia ].

(** Away from NaN, [min] is the argument that comes first in the order, the
    left one when neither comes before the other. *)
Lemma f32_min_spec x y :
  x <> S754_nan -> y <> S754_nan ->
  (f32_before y x /\ f32_min x y = y) \/ (~ f32_before y x /\ f32_min x y = x).
Proof.
  intros Hx Hy.
  unfold f32_min, f32_is_nan, f32_eq, f32_lt, SFeqb, SFltb, f32_before.
  destruct x as [[]|[]| |[] mx ex], y as [[]|[]| |[] my ey]; try done;
    simpl; compare_cases; simpl; rank_cases.
Qed.

Lemma f32_max_spec x y :
  x <> S754_nan -> y <> S754_nan ->
  (f32_before x y /\ f32_max x y = y) \/ (~ f32_before x y /\ f32_max x y = x).
Proof.
  intros Hx Hy.
  unfold f32_max, f32_is_nan, f32_eq, f32_lt, SFeqb, SFltb, f32_before.
  destruct x as [[]|[]| |[] mx ex], y as [[]|[]| |[] my ey]; try done;
    simpl; compare_cases; simpl; rank_cases.
Qed.

Lemma f32_min_nan x y :
  x = S754_nan \/ y = S754_nan -> f32_min x y = S754_nan.
Proof.
  intros [-> | ->]; unfold f32_min.
  - destruct (f32_is_nan y || f32_lt y S754_nan) eqn:E; [|done].
    apply orb_true_iff in E as [E|E]; [by apply f32_is_nan_true in E|].
    by destruct y as [| | |[]].
  - done.
Qed.

Lemma f32_max_nan x y :
  x = S754_nan \/ y = S754_nan -> f32_max x y = S754_nan.
Proof.
  intros [-> | ->]; unfold f32_max.
  - destruct (f32_is_nan y || f32_lt S754_nan y) eqn:E; [|done].
    apply orb_true_iff in E as [E|E]; [by apply f32_is_nan_true in E|].
    by destruct y as [| | |[]].
  - done.
Qed.

Lemma f32_min_not_nan x y :
  x <> S754_nan -> y <> S754_nan -> f32_min x y <> S754_nan.
Proof. intros Hx Hy. by destruct (f32_min_spec x y Hx Hy) as [[_ ->]|[_ ->]]. Qed.

Lemma f32_max_not_nan x y :
  x <> S754_nan -> y <> S754_nan -> f32_max x y <> S754_nan.
Proof. intros Hx Hy. by destruct (f32_max_spec x y Hx Hy) as [[_ ->]|[_ ->]]. Qed.

(** [<=] of the source holds between two values, neither a NaN, when the
    second does not come before the first. *)
Lemma f32_le_rank x y :
  x <> S754_nan -> y <> S754_nan -> ~ f32_before y x -> f32_le x y = true.
Proof.
  intros Hx Hy. unfold f32_le, SFleb, f32_before.
  destruct x as [[]|[]| |[] mx ex], y as [[]|[]| |[] my ey]; try done;
    simpl; compare_cases; simpl; intros Hnb; first [reflexivity | exfalso; lia].
Qed.

Ltac rank_open :=
  unfold f32_before, rank_lt in *;
  repeat match goal with
  | H : context [f32_rank ?x] |- _ =>
      let r := fresh "r" in let E := fresh "E" in
      remember (f32_rank x) as r eqn:E; clear E; destruct r as [[? ?] ?]
  | |- context [f32_rank ?x] =>
      let r := fresh "r" in let E := fresh "E" in
      remember (f32_rank x) as r eqn:E; clear E; destruct r as [[? ?] ?]
  end.

Ltac rank_solve :=
  first [ reflexivity
        | exfalso; rank_open; lia
        | apply f32_rank_inj; [assumption|assumption|];
          rank_open; f_equal; [f_equal|]; lia ].

Lemma f32_min_comm x y : f32_min x y = f32_min y x.
Proof.
  destruct (f32_nan_dec x) as [->|Hx]; [by rewrite !f32_min_nan by auto|].
  destruct (f32_nan_dec y) as [->|Hy]; [by rewrite !f32_min_nan by auto|].
  destruct (f32_min_spec x y Hx Hy) as [[H1 ->]|[H1 ->]],
           (f32_min_spec y x Hy Hx) as [[H2 ->]|[H2 ->]]; rank_solve.
Qed.

Lemma f32_max_comm x y : f32_max x y = f32_max y x.
Proof.
  destruct (f32_nan_dec x) as [->|Hx]; [by rewrite !f32_max_nan by auto|].
  destruct (f32_nan_dec y) as [->|Hy]; [by rewrite !f32_max_nan by auto|].
  destruct (f32_max_spec x y Hx Hy) as [[H1 ->]|[H1 ->]],
           (f32_max_spec y x Hy Hx) as [[H2 ->]|[H2 ->]]; rank_solve.
Qed.

Ltac minmax_open :=
  repeat match goal with
  | |- context [f32_min ?a ?b] =>
      let Ha := fresh "Ha" in let Hb := fresh "Hb" in
      let H := fresh "H" in let E := fresh "E" in
      assert (a <> S754_nan) as Ha by assumption;
      assert (b <> S754_nan) as Hb by assumption;
      destruct (f32_min_spec a b Ha Hb) as [[H E]|[H E]]; rewrite E; clear Ha Hb E
  | |- context [f32_max ?a ?b] =>
      let Ha := fresh "Ha" in let Hb := fresh "Hb" in
      let H := fresh "H" in let E := fresh "E" in
      assert (a <> S754_nan) as Ha by assumption;
      assert (b <> S754_nan) as Hb by assumption;
      destruct (f32_max_spec a b Ha Hb) as [[H E]|[H E]]; rewrite E; clear Ha Hb E
  end.

Lemma f32_min_assoc x y z : f32_min (f32_min x y) z = f32_min x (f32_min y z).
Proof.
  destruct (f32_nan_dec x) as [->|Hx]; [by rewrite !f32_min_nan by auto using f32_min_nan|].
  destruct (f32_nan_dec y) as [->|Hy]; [by rewrite !f32_min_nan by auto using f32_min_nan|].
  destruct (f32_nan_dec z) as [->|Hz]; [by rewrite !f32_min_nan by auto using f32_min_nan|].
  minmax_open; rank_solve.
Qed.

Lemma f32_max_assoc x y z : f32_max (f32_max x y) z = f32_max x (f32_max y z).
Proof.
  destruct (f32_nan_dec x) as [->|Hx]; [by rewrite !f32_max_nan by auto using f32_max_nan|].
  destruct (f32_nan_dec y) as [->|Hy]; [by rewrite !f32_max_nan by auto using f32_max_nan|].
  destruct (f32_nan_dec z) as [->|Hz]; [by rewrite !f32_max_nan by auto using f32_max_nan|].
  minmax_open; rank_solve.
Qed.

Lemma f32_add_comm x y : f32_add x y = f32_add y x.
Proof.
  unfold f32_add, SFadd.
  destruct x as [[]|[]| |sx mx ex], y as [[]|[]| |sy my ey]; try reflexivity.
  rewrite (Z.min_comm ey ex). f_equal. apply Z.add_comm.
Qed.

Lemma int64_wrap_add_l a b : int64_wrap (int64_wrap a + b) = int64_wrap (a + b).
Proof.
  unfold int64_wrap.
  replace ((a + 2 ^ 63) mod 2 ^ 64 - 2 ^ 63 + b + 2 ^ 63)
    with ((a + 2 ^ 63) mod 2 ^ 64 + b) by ring.
  rewrite Zplus_mod_idemp_l. do 2 f_equal. ring.
Qed.

Lemma int64_wrap_add_r a b : int64_wrap (a + int64_wrap b) = int64_wrap (a + b).
Proof. by rewrite Z.add_comm, int64_wrap_add_l, Z.add_comm. Qed.

(** ** The merge as an operation on statistics *)

Lemma combineStatistics_comm a b : combineStatistics a b = combineStatistics b a.
Proof.
  unfold combineStatistics.
  by rewrite f32_min_comm, f32_max_comm, Z.add_comm.
Qed.

Lemma combineStatistics_assoc a b c :
  combineStatistics (combineStatistics a b) c
  = combineStatistics a (combineStatistics b c).
Proof.
  unfold combineStatistics. simpl.
  rewrite f32_min_assoc, f32_max_assoc, int64_wrap_add_l, int64_wrap_add_r.
  by rewrite Z.add_assoc.
Qed.

Lemma statistics_combine a b :
  statistics (combine a b) = combineStatistics (statistics a) (statistics b).
Proof. done. Qed.

Lemma mergeStatistics_lookup a b station :
  mergeStatistics a b !! station
  = match a !! station, b !! station with
    | Some x, Some y => Some (combineStatistics x y)
    | Some x, None => Some x
    | None, y => y
    end.
Proof.
  unfold mergeStatistics. rewrite lookup_union_with.
  by destruct (a !! station), (b !! station).
Qed.

Lemma mergeStatistics_comm a b : mergeStatistics a b = mergeStatistics b a.
Proof.
  apply map_eq. intros k. rewrite !mergeStatistics_lookup.
  destruct (a !! k), (b !! k); try done. by rewrite combineStatistics_comm.
Qed.

Lemma mergeStatistics_assoc a b c :
  mergeStatistics (mergeStatistics a b) c = mergeStatistics a (mergeStatistics b c).
Proof.
  apply map_eq. intros k. rewrite !mergeStatistics_lookup.
  destruct (a !! k), (b !! k), (c !! k); try done.
  by rewrite combineStatistics_assoc.
Qed.

Lemma mergeStatistics_empty_l a : mergeStatistics ∅ a = a.
Proof.
  apply map_eq. intros k. rewrite mergeStatistics_lookup, lookup_empty. done.
Qed.

Lemma mergeStatistics_empty_r a : mergeStatistics a ∅ = a.
Proof. by rewrite mergeStatistics_comm, mergeStatistics_empty_l. Qed.

(** What [mergeReadings] leaves under a station, whatever the order in
    which the map of the worker is ranged over. *)
Lemma mergeReadings_lookup readings subreadings station :
  mergeReadings readings subreadings !! station
  = match readings !! station, subreadings !! station with
    | Some v, Some m => Some (combine v m)
    | Some v, None => Some v
    | None, m => m
    end.
Proof.
  unfold mergeReadings. revert station.
  apply (map_fold_weak_ind (fun r m => forall station,
    r !! station = match readings !! station, m !! station with
                   | Some v, Some m => Some (combine v m)
                   | Some v, None => Some v
                   | None, m => m
                   end)).
  - intros k. rewrite lookup_empty. by destruct (readings !! k).
  - intros i x m r Hi IH k. unfold mergeStation.
    destruct (decide (i = k)) as [->|Hne].
    + specialize (IH k). rewrite Hi in IH. rewrite (lookup_insert_eq m).
      destruct (readings !! k) as [v|] eqn:E; rewrite IH.
      * by rewrite lookup_insert_eq.
      * rewrite lookup_insert_eq. by destruct x.
    + rewrite (lookup_insert_ne m) by done. rewrite <- IH.
      destruct (r !! i); by rewrite lookup_insert_ne.
Qed.

Lemma statistics_mergeReadings readings subreadings :
  statistics <$> mergeReadings readings subreadings
  = mergeStatistics (statistics <$> readings) (statistics <$> subreadings).
Proof.
  apply map_eq. intros k.
  rewrite lookup_fmap, mergeReadings_lookup, mergeStatistics_lookup, !lookup_fmap.
  by destruct (readings !! k), (subreadings !! k).
Qed.

Lemma observe_lookup readings station m32 k :
  observe readings station m32 !! k
  = if decide (station = k) then
      Some match readings !! station with
           | Some v => {| Min := f32_min (Min v) m32; Max := f32_max (Max v) m32;
                          Sum := f32_add (Sum v) m32;
                          Count := int64_wrap (Count v + 1) |}
           | None => {| Min := m32; Max := m32; Sum := m32; Count := 1 |}
           end
    else readings !! k.
Proof.
  unfold observe. destruct (decide (station = k)) as [->|Hne].
  - destruct (readings !! k); by rewrite lookup_insert_eq.
  - destruct (readings !! station); by rewrite lookup_insert_ne.
Qed.

Lemma statistics_observe readings station m32 :
  statistics <$> observe readings station m32
  = mergeStatistics (statistics <$> readings) {[station := (m32, m32, 1)]}.
Proof.
  apply map_eq. intros k.
  rewrite lookup_fmap, observe_lookup, mergeStatistics_lookup, lookup_fmap.
  destruct (decide (station = k)) as [->|Hne].
  - rewrite lookup_singleton_eq. by destruct (readings !! k).
  - rewrite lookup_singleton_ne by done. by destruct (readings !! k).
Qed.

Lemma observeAll_snoc readings observations o :
  observeAll readings (observations ++ [o])
  = observe (observeAll readings observations) o.1 o.2.
Proof. unfold observeAll. by rewrite foldl_snoc. Qed.

Lemma statistics_observeAll observations : forall readings,
  statistics <$> observeAll readings observations
  = mergeStatistics (statistics <$> readings) (observedStatistics observations).
Proof.
  induction observations as [|o obs IH]; intros readings; simpl.
  - by rewrite mergeStatistics_empty_r.
  - rewrite IH, statistics_observe. by rewrite mergeStatistics_assoc.
Qed.

Lemma observedStatistics_app obs1 obs2 :
  observedStatistics (obs1 ++ obs2)
  = mergeStatistics (observedStatistics obs1) (observedStatistics obs2).
Proof.
  induction obs1 as [|o obs1 IH]; simpl.
  - by rewrite mergeStatistics_empty_l.
  - by rewrite IH, mergeStatistics_assoc.
Qed.

Lemma mergeAllStatistics_app l1 l2 :
  mergeAllStatistics (l1 ++ l2)
  = mergeStatistics (mergeAllStatistics l1) (mergeAllStatistics l2).
Proof.
  induction l1 as [|a l1 IH]; simpl.
  - by rewrite mergeStatistics_empty_l.
  - by rewrite IH, mergeStatistics_assoc.
Qed.

Lemma mergeAllStatistics_perm l1 l2 :
  l1 ≡ₚ l2 -> mergeAllStatistics l1 = mergeAllStatistics l2.
Proof.
  induction 1 as [|a l1 l2 _ IH|a b l|l1 l2 l3 _ IH1 _ IH2]; simpl.
  - done.
  - by rewrite IH.
  - rewrite <- !mergeStatistics_assoc. by rewrite (mergeStatistics_comm b a).
  - by rewrite IH1.
Qed.

(** The loop of the merger over results without error: it receives them
    all and merges them from the left. *)
Lemma reduceLoop_succeeded channel : forall readings,
  Forall succeeded channel ->
  reduceLoop (length channel) channel readings
  = Some (Returns (foldl mergeReadings readings (Readings <$> channel)), []).
Proof.
  induction channel as [|r channel IH]; intros readings Hall; [done|].
  inversion Hall as [|? ? Hr Hall']; subst. simpl.
  unfold succeeded in Hr. rewrite Hr. by apply IH.
Qed.

Lemma statistics_foldl_mergeReadings (l : list (gmap string Measurements)) :
  forall readings : gmap string Measurements,
  statistics <$> foldl mergeReadings readings l
  = mergeStatistics (statistics <$> readings)
      (mergeAllStatistics ((fun m : gmap string Measurements => statistics <$> m) <$> l)).
Proof.
  induction l as [|a l IH]; intros readings; simpl.
  - by rewrite mergeStatistics_empty_r.
  - rewrite IH, statistics_mergeReadings. by rewrite mergeStatistics_assoc.
Qed.

Lemma sameStatistics_fmap a b :
  sameStatistics a b <-> statistics <$> a = statistics <$> b.
Proof.
  unfold sameStatistics. split.
  - intros H. apply map_eq. intros k. by rewrite !lookup_fmap.
  - intros H k. by rewrite <- !lookup_fmap, H.
Qed.

(** ** [determineRanges]: when it fails and when it never returns *)

Section PartitionFailure.

Variable file : list ascii.
Variable delim : ascii.

Let len : Z := Z.of_nat (length file).

(** When the first [approxSize + 1] bytes hold no delimiter and the file
    has one further on, at [d], the end of the first range gets below the
    start of the file and [determineRanges] fails. *)
Lemma determineRanges_underflow_fails fuel n d :
  2 <= n <= len -> len < 2 ^ 62 ->
  len `quot` n < d < len ->
  file !! Z.to_nat d = Some delim ->
  (forall j, 0 <= j < d -> file !! Z.to_nat j <> Some delim) ->
  (Z.to_nat d + Z.to_nat (len `quot` n) + 1 < fuel)%nat ->
  determineRanges fuel (Some file) n delim
  = Some (Fails (ErrInvalidRangeEnd (1 - d))).
Proof.
  intros Hn Hlen Hd Hdel Hno Hfuel.
  set (approxSize := len `quot` n) in *.
  assert (1 <= approxSize /\ n * approxSize <= len) as [Ha1 Ha2].
  { unfold approxSize. rewrite Z.quot_div_nonneg by lia. split.
    - apply Z.div_le_lower_bound; lia.
    - apply Z.mul_div_le. lia. }
  assert (approxSize < len) as Ha3 by nia.
  unfold determineRanges.
  change (offset (seekEnd (openFile file))) with len.
  destruct (Z.eqb_spec n 1); [lia|]. destruct (Z.eqb_spec n 0); [lia|].
  fold approxSize. destruct (Z.eqb_spec approxSize 0); [lia|].
  replace fuel with ((fuel - S (Z.to_nat approxSize)) + S (Z.to_nat approxSize))%nat by lia.
  destruct (adjustEnd_underflow file delim (fuel - S (Z.to_nat approxSize))
              approxSize (seekEnd (openFile file)) "000"%char)
    as (b' & Hb' & ->); try done; try lia.
  { unfold int64_max. lia. }
  { intros j Hj. apply Hno. lia. }
  rewrite (adjustEnd_forward file delim _ 1 _ b' d); try done; try lia.
  - change (lastEnd [{| Begin := 0; End := 1 - d |}]) with (Returns (A:=Z) (1 - d)).
    cbv beta iota. destruct (Z.ltb_spec (1 - d) 0); [done|lia].
  - unfold int64_max. lia.
  - intros j Hj. apply Hno. lia.
Qed.

(** Without any delimiter in the file, and with at least one byte for
    each worker, [determineRanges] never returns. *)
Lemma determineRanges_diverges fuel n :
  n <> 1 -> n <> 0 -> len `quot` n <> 0 ->
  delim ∉ file -> delim <> "000"%char ->
  determineRanges fuel (Some file) n delim = None.
Proof.
  intros Hn1 Hn0 Ha Hno Hz. unfold determineRanges.
  change (offset (seekEnd (openFile file))) with len.
  destruct (Z.eqb_spec n 1); [done|]. destruct (Z.eqb_spec n 0); [done|].
  destruct (Z.eqb_spec (len `quot` n) 0); [done|].
  by rewrite (adjustEnd_diverges file).
Qed.

End PartitionFailure.

(** C1 (the code departs from the claim): on six records of four bytes and
    eight workers [determineRanges] returns eight ranges, but the seventh
    ends at offset 28, past the 24 bytes of the file, where no delimiter
    is, and the last runs backwards from 28 to 24: their union is not
    [[0, 24)].  The candidate end 27 of the seventh range lies past the end
    of the file, nothing is read there, and the delimiter left in the
    buffer by the range before ends the loop at once. *)
Theorem determineRanges_past_end :
  determineRanges 8 (Some sixRecords) 8 MeasurementDelimeter
  = Some (Returns [ {| Begin := 0; End := 4 |}; {| Begin := 4; End := 8 |};
                    {| Begin := 8; End := 12 |}; {| Begin := 12; End := 16 |};
                    {| Begin := 16; End := 20 |}; {| Begin := 20; End := 24 |};
                    {| Begin := 24; End := 28 |}; {| Begin := 28; End := 24 |} ]).
Proof. vm_compute. reflexivity. Qed.

(** C6 (the code departs from the claim): on a file of one record without
    newline and two workers the end of the first range gets below the start
    of the file, and [determineRanges] neither fails nor returns: whatever
    the fuel, the loop that adjusts the end is still running. *)
Theorem determineRanges_no_delimiter_never_returns :
  forall fuel, determineRanges fuel (Some oneRecord) 2 MeasurementDelimeter = None.
Proof.
  intros fuel. apply determineRanges_diverges; try done.
  unfold oneRecord, bytes, MeasurementDelimeter. simpl.
  rewrite !elem_of_cons, elem_of_nil. intros H.
  repeat destruct H as [H|H]; done.
Qed.

(** ** The aggregator *)

Lemma scanDelimeter_absent rest : forall pos len,
  StationDelimeter ∉ rest ->
  int64_min <= pos -> pos + Z.of_nat (length rest) <= int64_max ->
  scanDelimeter rest pos len
  = Panics (IndexOutOfRange (pos + Z.of_nat (length rest)) len).
Proof.
  induction rest as [|c rest IH]; intros pos len Hno Hlo Hhi; simpl.
  - do 2 f_equal. lia.
  - apply not_elem_of_cons in Hno as [Hc Hno].
    assert (byte_eqb c StationDelimeter = false) as ->.
    { apply byte_eqb_neq. congruence. }
    simpl length in Hhi.
    rewrite int64_wrap_id by lia.
    rewrite IH by (done || lia). do 2 f_equal. lia.
Qed.

Lemma scanDelimeter_present rest : forall pos len,
  StationDelimeter ∈ rest ->
  int64_min <= pos -> pos + Z.of_nat (length rest) <= int64_max ->
  exists k : nat,
    scanDelimeter rest pos len = Returns (pos + Z.of_nat k) /\
    rest !! k = Some StationDelimeter /\
    StationDelimeter ∉ take k rest.
Proof.
  induction rest as [|c rest IH]; intros pos len Hin Hlo Hhi; simpl.
  - by apply elem_of_nil in Hin.
  - destruct (byte_eqb c StationDelimeter) eqn:E.
    + apply byte_eqb_eq in E as ->. exists 0%nat.
      split; [f_equal; lia|]. split; [done|]. simpl. apply not_elem_of_nil.
    + apply byte_eqb_neq in E. simpl length in Hhi.
      apply elem_of_cons in Hin as [Hin|Hin]; [congruence|].
      rewrite int64_wrap_id by lia.
      destruct (IH (pos + 1) len Hin) as (k & Hk1 & Hk2 & Hk3); [lia|lia|].
      exists (S k). split; [rewrite Hk1; f_equal; lia|]. split; [done|].
      simpl. apply not_elem_of_cons. split; [congruence|done].
Qed.

(** C9: the scan for the field delimiter returns, with the position of the
    first one, on a record that has one; on a record that has none it
    indexes the buffer at its length, which panics: the loop of the task
    ends there, no result is sent for the record, and a task that meets
    such a record first sends nothing at all. *)
Theorem scanDelimeter_total_only_with_delimiter (buffer : list ascii) :
  Z.of_nat (length buffer) <= int64_max ->
  (StationDelimeter ∈ buffer ->
   exists k : nat,
     scanDelimeter buffer 0 (Z.of_nat (length buffer)) = Returns (Z.of_nat k) /\
     buffer !! k = Some StationDelimeter /\
     StationDelimeter ∉ take k buffer) /\
  (StationDelimeter ∉ buffer ->
   let oob := IndexOutOfRange (Z.of_nat (length buffer)) (Z.of_nat (length buffer)) in
   scanDelimeter buffer 0 (Z.of_nat (length buffer)) = Panics oob /\
   (forall parseFloat tokens readings sent,
      scanLoop parseFloat (buffer :: tokens) readings sent = (sent, Panics oob)) /\
   (forall parseFloat tokens,
      taskOn parseFloat None (buffer :: tokens) = ([], Panics oob))).
Proof.
  intros Hlen. split.
  - intros Hin.
    destruct (scanDelimeter_present buffer 0 (Z.of_nat (length buffer)) Hin)
      as (k & Hk1 & Hk2 & Hk3); [unfold int64_min; lia|lia|].
    exists k. by rewrite Hk1.
  - intros Hno oob.
    assert (scanDelimeter buffer 0 (Z.of_nat (length buffer)) = Panics oob) as Hscan.
    { rewrite scanDelimeter_absent; [done|done|unfold int64_min; lia|lia]. }
    split; [done|]. split.
    + intros parseFloat tokens readings sent. simpl.
      unfold processRecord. by rewrite Hscan.
    + intros parseFloat tokens. unfold taskOn. simpl.
      unfold processRecord. by rewrite Hscan.
Qed.

Lemma scanDelimeter_total_only_with_delimiter_witness :
  Z.of_nat (length (bytes "A1.0")) <= int64_max /\
  (StationDelimeter ∉ bytes "A1.0") /\
  taskOn parseDecimal None [bytes "A1.0"] = ([], Panics (IndexOutOfRange 4 4)).
Proof.
  assert (Z.of_nat (length (bytes "A1.0")) <= int64_max) as H
    by (vm_compute; discriminate).
  assert (StationDelimeter ∉ bytes "A1.0") as Hno.
  { unfold bytes, StationDelimeter. simpl.
    rewrite !elem_of_cons, elem_of_nil. intros Hin.
    repeat destruct Hin as [Hin|Hin]; done. }
  split; [exact H|]. split; [exact Hno|].
  exact (proj2 (proj2 (proj2 (scanDelimeter_total_only_with_delimiter
                                (bytes "A1.0") H) Hno))
           parseDecimal []).
Defined.

(** C2 (the code departs from the claim): on the one record
    [A;notanumber] the task sends two results, the parse error and then a
    result without error, and it goes on aggregating after the error: the
    record is counted under its station with the value that came with the
    error.  Nothing leaves the loop body after the error is sent. *)
Theorem task_sends_again_after_parse_error
    (parseFloat : string -> float32 * option error) (v : float32) (e : error) :
  parseFloat "notanumber" = (v, Some e) ->
  task parseFloat (Some (bytes ("A;notanumber" ++ nl))) {| Begin := 0; End := 13 |}
  = ([errorResult e;
      readingsResult {[ "A"%string := {| Min := v; Max := v; Sum := v; Count := 1 |} ]}],
     Returns tt).
Proof.
  intros Hparse. unfold task, taskOn.
  replace (fst (scanChunk (Some (bytes ("A;notanumber" ++ nl))) {| Begin := 0; End := 13 |}))
    with [bytes "A;notanumber"] by (vm_compute; reflexivity).
  simpl scanLoop. unfold processRecord.
  match goal with
  | |- context [scanDelimeter ?b ?p ?l] =>
      let r := eval vm_compute in (scanDelimeter b p l) in
      change (scanDelimeter b p l) with r
  end.
  cbv beta iota.
  repeat match goal with
  | |- context [string_of_list_ascii ?x] =>
      let r := eval vm_compute in (string_of_list_ascii x) in
      change (string_of_list_ascii x) with r
  end.
  rewrite Hparse. reflexivity.
Qed.

Lemma task_sends_again_after_parse_error_witness :
  parseDecimal "notanumber" = (f32_zero, Some (ErrSyntax "notanumber")) /\
  length (fst (task parseDecimal (Some (bytes ("A;notanumber" ++ nl)))
                 {| Begin := 0; End := 13 |})) = 2%nat.
Proof.
  split; [vm_compute; reflexivity|].
  rewrite (task_sends_again_after_parse_error parseDecimal f32_zero
             (ErrSyntax "notanumber")); [reflexivity|vm_compute; reflexivity].
Defined.

(** The results that a task sends when its loop ends without panic: one for
    each value that does not parse, and one at the end. *)
Lemma scanLoop_sent parseFloat tokens : forall readings sent sent' readings',
  scanLoop parseFloat tokens readings sent = (sent', Returns readings') ->
  exists errors, sent' = sent ++ errors /\ Forall (fun r => Error r <> None) errors.
Proof.
  induction tokens as [|buffer tokens IH]; intros readings sent sent' readings' H; simpl in H.
  - exists []. rewrite app_nil_r. by inversion H.
  - unfold processRecord in H.
    destruct (scanDelimeter buffer 0 _) as [p|e|pos]; [done|done|].
    destruct (parseFloat _) as [measurement [e|]].
    + apply IH in H as (errors & -> & Hall).
      exists (errorResult e :: errors). rewrite <- app_assoc. split; [done|].
      constructor; [done|done].
    + by apply IH in H.
Qed.

(** ** The merger *)

(** C5 (the claim as it stands does not hold): with two workers and the
    error of one arriving first, the loop of the merger ends with that error
    and the result of the other worker is never received. *)
Lemma reduceLoop_leaves_results_unreceived :
  reduceLoop 2 [errorResult ErrOpen; readingsResult ∅] ∅
  = Some (Fails ErrOpen, [readingsResult ∅]).
Proof. reflexivity. Qed.

(** C5 (amended): when a result with an error arrives, after results
    without error and within the number of workers, the loop of the merger
    ends with that error at once: every result that arrives after it is
    left unreceived. *)
Theorem reduceLoop_first_error (cnt : nat) (before : list AggregationResult)
    (r : AggregationResult) (after : list AggregationResult)
    (readings : gmap string Measurements) (e : error) :
  Forall succeeded before -> Error r = Some e -> (length before < cnt)%nat ->
  reduceLoop cnt (before ++ r :: after) readings = Some (Fails e, after).
Proof.
  revert cnt readings.
  induction before as [|r0 before IH]; intros cnt readings Hall Hr Hcnt.
  - destruct cnt as [|cnt]; [simpl in Hcnt; lia|]. simpl. by rewrite Hr.
  - destruct cnt as [|cnt]; [simpl in Hcnt; lia|].
    inversion Hall as [|? ? Hr0 Hall']; subst. simpl.
    unfold succeeded in Hr0. rewrite Hr0. apply IH; [done|done|]. simpl in Hcnt. lia.
Qed.

Lemma reduceLoop_first_error_witness :
  Forall succeeded [readingsResult ∅] /\
  Error (errorResult ErrOpen) = Some ErrOpen /\
  (length [readingsResult ∅] < 3)%nat /\
  reduceLoop 3 ([readingsResult ∅] ++ errorResult ErrOpen :: [readingsResult ∅]) ∅
  = Some (Fails ErrOpen, [readingsResult ∅]).
Proof.
  assert (Forall succeeded [readingsResult ∅]) as H1.
  { constructor; [reflexivity|constructor]. }
  assert (length [readingsResult ∅] < 3)%nat as H2 by (simpl; lia).
  split; [exact H1|]. split; [reflexivity|]. split; [exact H2|].
  exact (reduceLoop_first_error 3 [readingsResult ∅] (errorResult ErrOpen)
           [readingsResult ∅] ∅ ErrOpen H1 eq_refl H2).
Defined.

(** ** The formatter *)

Lemma writeEntries_missing formatFloat stations :
  forall numStations i readings buffer,
  (exists station, station ∈ stations /\ readings !! station = None) ->
  writeEntries formatFloat numStations i stations readings buffer
  = Panics NilDereference.
Proof.
  induction stations as [|s stations IH];
    intros numStations i readings buffer (station & Hin & Hnone).
  - by apply elem_of_nil in Hin.
  - simpl. destruct (readings !! s) as [v|] eqn:E; [|done].
    rewrite bool_decide_eq_true_2 by eauto. simpl.
    apply IH. exists station. split; [|done].
    apply elem_of_cons in Hin as [->|Hin]; [congruence|done].
Qed.

(** C8 (the code departs from the claim): when a station of the list has
    no entry in the map, [writeOutput] does not return an error: it
    panics.  The sum of the entry is read through the nil pointer before
    the flag of the lookup is tested. *)
Theorem writeOutput_missing_entry_panics (formatFloat : float32 -> string)
    (stations : list string) (readings : gmap string Measurements) :
  (exists station, station ∈ stations /\ readings !! station = None) ->
  writeOutput formatFloat stations readings = Panics NilDereference.
Proof.
  intros H. unfold writeOutput. by rewrite writeEntries_missing.
Qed.

Lemma writeOutput_missing_entry_panics_witness :
  (exists station : string,
      station ∈ ["A"%string] /\ (∅ : gmap string Measurements) !! station = None) /\
  writeOutput (fun _ => "0.0"%string) ["A"%string] ∅ = Panics NilDereference.
Proof.
  assert (exists station : string,
             station ∈ ["A"%string] /\ (∅ : gmap string Measurements) !! station = None) as H.
  { exists "A"%string. split; [apply list_elem_of_here|reflexivity]. }
  split; [exact H|].
  exact (writeOutput_missing_entry_panics (fun _ => "0.0"%string) ["A"%string] ∅ H).
Defined.

(** ** The order in which the results arrive *)

Lemma combine_comm a b : combine a b = combine b a.
Proof.
  unfold combine. f_equal.
  - apply f32_min_comm.
  - apply f32_max_comm.
  - apply f32_add_comm.
  - f_equal. lia.
Qed.

(** C4 (the claim as it stands does not hold): the combination is not
    associative in the sum, and three results that arrive in two different
    orders are merged into two different maps.  On [float32],
    [(2 ^ 24 + 1) + 1] is [2 ^ 24] and [2 ^ 24 + (1 + 1)] is [2 ^ 24 + 2]. *)
Lemma merge_order_changes_sum :
  [sawLarge; sawOne; sawOne] ≡ₚ [sawOne; sawOne; sawLarge] /\
  reduceLoop 3 [sawLarge; sawOne; sawOne] ∅
  <> reduceLoop 3 [sawOne; sawOne; sawLarge] ∅ /\
  Sum (combine (combine (once (f32_of_int 16777216)) (once (f32_of_int 1)))
         (once (f32_of_int 1)))
  <> Sum (combine (once (f32_of_int 16777216))
            (combine (once (f32_of_int 1)) (once (f32_of_int 1)))).
Proof.
  split; [apply (Permutation_cons_append [sawOne; sawOne] sawLarge)|].
  split.
  - intros H.
    apply (f_equal (fun o => match o with
                             | Some (Returns m, _) => Sum <$> (m !! "A"%string)
                             | _ => None
                             end)) in H.
    vm_compute in H. discriminate H.
  - vm_compute. discriminate.
Qed.

(** C4 (amended): the combination is commutative, and associative in the
    minimum, the maximum and the count; results without error that arrive
    in any two orders are all received and merged into maps with the same
    stations and, for each station, the same minimum, maximum and count.
    The sums are left out: they depend on the order. *)
Theorem merge_order_keeps_statistics (channel channel' : list AggregationResult) :
  Forall succeeded channel -> channel ≡ₚ channel' ->
  (forall a b, combine a b = combine b a) /\
  (forall a b c,
     statistics (combine (combine a b) c) = statistics (combine a (combine b c))) /\
  exists readings readings',
    reduceLoop (length channel) channel ∅ = Some (Returns readings, []) /\
    reduceLoop (length channel') channel' ∅ = Some (Returns readings', []) /\
    sameStatistics readings readings'.
Proof.
  intros Hall Hperm. split; [apply combine_comm|]. split.
  - intros a b c. rewrite !statistics_combine. apply combineStatistics_assoc.
  - assert (Forall succeeded channel') as Hall' by by rewrite <- Hperm.
    eexists _, _. split; [by apply reduceLoop_succeeded|].
    split; [by apply reduceLoop_succeeded|].
    apply sameStatistics_fmap. rewrite !statistics_foldl_mergeReadings.
    f_equal. apply mergeAllStatistics_perm.
    by rewrite Hperm.
Qed.

Lemma merge_order_keeps_statistics_witness :
  Forall succeeded [sawLarge; sawOne; sawOne] /\
  [sawLarge; sawOne; sawOne] ≡ₚ [sawOne; sawOne; sawLarge] /\
  exists readings readings',
    reduceLoop 3 [sawLarge; sawOne; sawOne] ∅ = Some (Returns readings, []) /\
    reduceLoop 3 [sawOne; sawOne; sawLarge] ∅ = Some (Returns readings', []) /\
    sameStatistics readings readings'.
Proof.
  assert (Forall succeeded [sawLarge; sawOne; sawOne]) as H1.
  { repeat constructor. }
  assert ([sawLarge; sawOne; sawOne] ≡ₚ [sawOne; sawOne; sawLarge]) as H2.
  { apply (Permutation_cons_append [sawOne; sawOne] sawLarge). }
  split; [exact H1|]. split; [exact H2|].
  exact (proj2 (proj2 (merge_order_keeps_statistics _ _ H1 H2))).
Defined.

(** ** The local map of a worker *)

Lemma valuesOf_snoc station observations o :
  valuesOf station (observations ++ [o])
  = valuesOf station observations ++ (if decide (o.1 = station) then [o.2] else []).
Proof.
  unfold valuesOf. rewrite filter_app, fmap_app. f_equal.
  rewrite filter_singleton; [|exact []]. by destruct (decide (o.1 = station)).
Qed.

Lemma valuesOf_length station observations :
  (length (valuesOf station observations) <= length observations)%nat.
Proof. unfold valuesOf. rewrite length_fmap. apply length_filter. Qed.

Lemma f32_before_irrefl x : ~ f32_before x x.
Proof. rank_open. lia. Qed.

(** What a worker holds under a station after a list of observations. *)
Lemma observeAll_invariant (observations : list (string * float32)) (station : string) :
  Z.of_nat (length observations) <= int64_max ->
  match observeAll ∅ observations !! station with
  | None => valuesOf station observations = []
  | Some m =>
      Count m = Z.of_nat (length (valuesOf station observations)) /\
      valuesOf station observations <> [] /\
      (Forall (fun v => v <> S754_nan) (valuesOf station observations) ->
       Min m <> S754_nan /\ Max m <> S754_nan /\ ~ f32_before (Max m) (Min m))
  end.
Proof.
  induction observations as [|o obs IH] using rev_ind; intros Hlen.
  - unfold observeAll. simpl. by rewrite lookup_empty.
  - rewrite length_app in Hlen. simpl in Hlen.
    specialize (IH ltac:(lia)).
    pose proof (valuesOf_length station obs) as Hvl.
    rewrite observeAll_snoc, observe_lookup, valuesOf_snoc.
    destruct (decide (o.1 = station)) as [Ho|Ho].
    + rewrite Ho. destruct (observeAll ∅ obs !! station) as [m|] eqn:E.
      * destruct IH as (Hc & Hne & Hord). simpl.
        split; [|split].
        -- rewrite length_app. simpl. rewrite Hc.
           rewrite int64_wrap_id; [lia|]. unfold int64_min, int64_max in *. lia.
        -- intros Hnil. by apply app_eq_nil in Hnil as [_ ?].
        -- intros Hall. apply Forall_app in Hall as [Hall Hv].
           apply (proj1 (Forall_singleton _ _)) in Hv.
           destruct (Hord Hall) as (Hmin & Hmax & Hle).
           minmax_open; repeat split; try assumption; rank_open; lia.
      * rewrite IH. simpl. split; [done|]. split; [done|].
        intros Hall. apply (proj1 (Forall_singleton _ _)) in Hall.
        split; [done|]. split; [done|]. apply f32_before_irrefl.
    + rewrite app_nil_r. exact IH.
Qed.

(** C7 (the claim as it stands does not hold): after the single observation
    of a NaN the entry holds NaN as minimum and as maximum, and
    [min <= max] is false. *)
Lemma observe_nan_breaks_order :
  exists m, observeAll ∅ [("A"%string, S754_nan)] !! "A"%string = Some m /\
            Count m = 1 /\ f32_le (Min m) (Max m) = false.
Proof. eexists. split; [reflexivity|]. split; reflexivity. Qed.

(** C7 (amended): the first observation of a station with the value [v]
    stores minimum, maximum and sum [v] and the count 1; each later one
    stores the minimum, the maximum and the sum with [v] and the count plus
    one.  After any list of observations a station has an entry exactly
    when it was observed, the count is the number of its observations, and
    [min <= max] holds when none of its values is a NaN. *)
Theorem observe_keeps_statistics (observations : list (string * float32))
    (station : string) :
  Z.of_nat (length observations) <= int64_max ->
  (forall readings v, readings !! station = None ->
     observe readings station v !! station
     = Some {| Min := v; Max := v; Sum := v; Count := 1 |}) /\
  (forall readings m v, readings !! station = Some m ->
     observe readings station v !! station
     = Some {| Min := f32_min (Min m) v; Max := f32_max (Max m) v;
               Sum := f32_add (Sum m) v; Count := int64_wrap (Count m + 1) |}) /\
  match observeAll ∅ observations !! station with
  | None => valuesOf station observations = []
  | Some m =>
      valuesOf station observations <> [] /\
      Count m = Z.of_nat (length (valuesOf station observations)) /\
      (Forall (fun v => v <> S754_nan) (valuesOf station observations) ->
       f32_le (Min m) (Max m) = true)
  end.
Proof.
  intros Hlen. split; [|split].
  - intros readings v Hnone. rewrite observe_lookup, Hnone.
    by rewrite decide_True.
  - intros readings m v Hsome. rewrite observe_lookup, Hsome.
    by rewrite decide_True.
  - pose proof (observeAll_invariant observations station Hlen) as Hinv.
    destruct (observeAll ∅ observations !! station) as [m|]; [|done].
    destruct Hinv as (Hc & Hne & Hord). split; [done|]. split; [done|].
    intros Hall. destruct (Hord Hall) as (Hmin & Hmax & Hle).
    by apply f32_le_rank.
Qed.

Lemma observe_keeps_statistics_witness :
  Z.of_nat (length [("A"%string, f32_of_int 2); ("B"%string, f32_of_int 5);
                    ("A"%string, f32_of_int 1)]) <= int64_max /\
  match observeAll ∅ [("A"%string, f32_of_int 2); ("B"%string, f32_of_int 5);
                      ("A"%string, f32_of_int 1)] !! "A"%string with
  | None =>
      valuesOf "A" [("A"%string, f32_of_int 2); ("B"%string, f32_of_int 5);
                    ("A"%string, f32_of_int 1)] = []
  | Some m =>
      valuesOf "A" [("A"%string, f32_of_int 2); ("B"%string, f32_of_int 5);
                    ("A"%string, f32_of_int 1)] <> [] /\
      Count m = Z.of_nat (length (valuesOf "A"
                  [("A"%string, f32_of_int 2); ("B"%string, f32_of_int 5);
                   ("A"%string, f32_of_int 1)])) /\
      (Forall (fun v => v <> S754_nan)
         (valuesOf "A" [("A"%string, f32_of_int 2); ("B"%string, f32_of_int 5);
                        ("A"%string, f32_of_int 1)]) ->
       f32_le (Min m) (Max m) = true)
  end.
Proof.
  assert (Z.of_nat (length [("A"%string, f32_of_int 2); ("B"%string, f32_of_int 5);
                            ("A"%string, f32_of_int 1)]) <= int64_max) as H
    by (vm_compute; discriminate).
  split; [exact H|].
  exact (proj2 (proj2 (observe_keeps_statistics _ "A"%string H))).
Defined.

(** ** More fuel changes nothing *)

Lemma adjustEnd_mono fuel : forall fuel' delim f b e res,
  adjustEnd fuel delim f b e = Some res -> (fuel <= fuel')%nat ->
  adjustEnd fuel' delim f b e = Some res.
Proof.
  induction fuel as [|fuel IH]; intros fuel' delim f b e res H Hle; [done|].
  destruct fuel' as [|fuel']; [lia|]. simpl in *.
  destruct (readByte (seekStart f e) b) as [f1 b1].
  destruct (byte_eqb b1 delim); [done|]. apply IH; [done|lia].
Qed.

Lemma middleRanges_mono fuel fuel' delim approxSize cnt : forall i f b ranges res,
  middleRanges fuel delim approxSize cnt i f b ranges = Some res ->
  (fuel <= fuel')%nat ->
  middleRanges fuel' delim approxSize cnt i f b ranges = Some res.
Proof.
  induction cnt as [|cnt IH]; intros i f b ranges res H Hle; simpl in *; [done|].
  destruct (ranges !! Z.to_nat (i - 1)); [|done].
  destruct (adjustEnd fuel delim f b _) as [[[f1 b1] e1]|] eqn:E; [|done].
  rewrite (adjustEnd_mono _ _ _ _ _ _ _ E Hle). by apply IH.
Qed.

Lemma determineRanges_mono fuel fuel' fs n delim res :
  determineRanges fuel fs n delim = Some res -> (fuel <= fuel')%nat ->
  determineRanges fuel' fs n delim = Some res.
Proof.
  intros H Hle. unfold determineRanges in *.
  destruct fs as [file|]; [|done].
  destruct (n =? 1); [done|]. destruct (n =? 0); [done|].
  destruct (_ =? 0); [done|].
  destruct (adjustEnd fuel delim _ _ _) as [[[f1 b1] e0]|] eqn:E; [|done].
  rewrite (adjustEnd_mono _ _ _ _ _ _ _ E Hle).
  destruct (lastEnd _) as [p|e|le]; [done|done|].
  destruct (le <? 0); [done|].
  destruct (middleRanges fuel _ _ _ _ _ _ _) as [mid|] eqn:Em; [|done].
  by rewrite (middleRanges_mono _ _ _ _ _ _ _ _ _ _ Em Hle).
Qed.

(** What [determineRanges] returns for two workers or more, whatever the
    fuel: the ranges of [determineRanges_returns]. *)
Lemma determineRanges_shape fuel (file : list ascii) delim n ranges :
  2 <= n -> Z.of_nat (length file) < 2 ^ 62 -> delim <> "000"%char ->
  determineRanges fuel (Some file) n delim = Some (Returns ranges) ->
  exists ranges' rlast,
    ranges = ranges' ++ [{| Begin := End rlast; End := Z.of_nat (length file) |}] /\
    Z.of_nat (length ranges') = n - 1 /\
    last ranges' = Some rlast /\
    chained 0 ranges' /\
    Forall (adjusted file delim) ranges' /\
    Forall (fun r => End r <= 2 * Z.of_nat (length file)) ranges'.
Proof.
  intros Hn Hlen Hz Hret.
  set (len := Z.of_nat (length file)) in *.
  assert (n <= len) as Hnlen.
  { destruct (Z.le_gt_cases n len) as [|Hgt]; [done|]. exfalso.
    unfold determineRanges in Hret.
    change (offset (seekEnd (openFile file))) with len in Hret.
    destruct (Z.eqb_spec n 1); [lia|]. destruct (Z.eqb_spec n 0); [lia|].
    rewrite Z.quot_small in Hret by lia. done. }
  assert (1 <= len `quot` n) as Ha.
  { rewrite Z.quot_div_nonneg by lia. apply Z.div_le_lower_bound; lia. }
  destruct (list_find (fun c => c = delim) file) as [[d c]|] eqn:Efind.
  - apply list_find_Some in Efind as (Hd & -> & Hfirst).
    assert (Z.of_nat d < len) as Hdlen.
    { apply lookup_lt_Some in Hd. unfold len. lia. }
    set (big := (fuel + Z.to_nat len + Z.to_nat (len `quot` n) + 2)%nat).
    pose proof (determineRanges_mono _ big _ _ _ _ Hret ltac:(lia)) as Hbig.
    destruct (Z.le_gt_cases (Z.of_nat d) (len `quot` n)) as [Hin|Hout].
    + assert (file !! Z.to_nat (Z.of_nat d) = Some delim) as Hd'
        by by rewrite Nat2Z.id.
      destruct (determineRanges_returns file delim big n (Z.of_nat d))
        as (ranges' & rlast & Heq & Hshape);
        [done|done|unfold len in *; lia|done|unfold big, len in *; lia|].
      fold len in Heq. rewrite Heq in Hbig. injection Hbig as <-.
      by exists ranges', rlast.
    + assert (file !! Z.to_nat (Z.of_nat d) = Some delim) as Hd'
        by by rewrite Nat2Z.id.
      rewrite (determineRanges_underflow_fails file delim big n (Z.of_nat d)) in Hbig;
        [done|done|done|unfold len in *; lia|done| |unfold big, len in *; lia].
      intros j Hj Hdel.
      apply (Hfirst (Z.to_nat j) delim); [done|lia|done].
  - exfalso. apply list_find_None in Efind.
    rewrite (determineRanges_diverges file delim) in Hret;
      [done|lia|lia|unfold len in *; lia| |done].
    intros Hin. rewrite Forall_forall in Efind. exact (Efind delim Hin eq_refl).
Qed.

(** ** The scanner over the chunks of a partition *)

Lemma int64_wrap_above z :
  int64_max < z <= int64_max + 2 ^ 63 -> int64_wrap z = z - 2 ^ 64.
Proof.
  unfold int64_wrap, int64_max. intros H.
  replace (z + 2 ^ 63) with (z - 2 ^ 63 + 1 * 2 ^ 64) by lia.
  rewrite Z_mod_plus_full, Z.mod_small; lia.
Qed.

(** After input that ends with a newline the scanner starts afresh. *)
Lemma scanLines_app a : forall cur n b,
  last a = Some MeasurementDelimeter ->
  scanLines cur n (a ++ b)
  = match scanLines cur n a with
    | (ta, Some e) => (ta, Some e)
    | (ta, None) => let '(tb, eb) := scanLines [] 0 b in (ta ++ tb, eb)
    end.
Proof.
  induction a as [|c a IH]; intros cur n b Hlast; [done|].
  simpl. destruct (byte_eqb c MeasurementDelimeter) eqn:E.
  - destruct a as [|c' a'].
    + simpl. by destruct (scanLines [] 0 b).
    + rewrite last_cons_cons in Hlast. rewrite (IH [] 0 b Hlast).
      destruct (scanLines [] 0 (c' :: a')) as [ta [e|]]; [done|].
      by destruct (scanLines [] 0 b).
  - destruct (MaxScanTokenSize <=? n + 1); [done|].
    destruct a as [|c' a'].
    + simpl in Hlast. injection Hlast as ->.
      apply byte_eqb_neq in E. done.
    + rewrite last_cons_cons in Hlast. by apply IH.
Qed.

(** Cutting the input at the start, at the end or after a newline cuts the
    list of its lines, and a scan without error stays without error. *)
Lemma scanLines_split a b :
  a = [] \/ b = [] \/ last a = Some MeasurementDelimeter ->
  snd (scanLines [] 0 (a ++ b)) = None ->
  snd (scanLines [] 0 a) = None /\ snd (scanLines [] 0 b) = None /\
  linesOf (a ++ b) = linesOf a ++ linesOf b.
Proof.
  unfold linesOf. intros [->|[->|Hlast]] Herr.
  - done.
  - rewrite app_nil_r in *. simpl. by rewrite app_nil_r.
  - rewrite scanLines_app in * by done.
    destruct (scanLines [] 0 a) as [ta [e|]]; [done|].
    by destruct (scanLines [] 0 b) as [tb eb].
Qed.

Lemma sectionBytes_range file r :
  0 <= Begin r <= End r -> End r < int64_max ->
  sectionBytes file r
  = (take (Z.to_nat (End r - Begin r)) (drop (Z.to_nat (Begin r)) file), None).
Proof.
  intros Hr Hend. unfold sectionBytes, sectionLimit.
  rewrite (int64_wrap_id (End r - Begin r)) by (unfold int64_min, int64_max in *; lia).
  rewrite (int64_wrap_id (int64_max - _)) by (unfold int64_min, int64_max in *; lia).
  destruct (Z.leb_spec (Begin r) (int64_max - (End r - Begin r))); [|lia].
  rewrite int64_wrap_id by (unfold int64_min, int64_max in *; lia).
  destruct (Z.leb_spec (End r - Begin r + Begin r) (Begin r)).
  - replace (End r - Begin r) with 0 by lia. done.
  - destruct (Z.ltb_spec (Begin r) 0); [lia|]. cbv zeta. f_equal.
    destruct (Z.le_gt_cases (End r) (Z.of_nat (length file))).
    + do 2 f_equal. lia.
    + rewrite !take_ge; [done|rewrite length_drop; lia|rewrite length_drop; lia].
Qed.

Lemma sectionBytes_last file b :
  0 <= b < int64_max -> Z.of_nat (length file) < int64_max ->
  sectionBytes file {| Begin := b; End := Z.of_nat (length file) |}
  = (drop (Z.to_nat b) file, None).
Proof.
  intros Hb Hlen. destruct (Z.le_gt_cases b (Z.of_nat (length file))) as [Hle|Hgt].
  - rewrite sectionBytes_range by (simpl; lia). simpl.
    rewrite take_ge; [done|]. rewrite length_drop. lia.
  - unfold sectionBytes, sectionLimit. simpl.
    rewrite (int64_wrap_id (_ - b)) by (unfold int64_min, int64_max in *; lia).
    rewrite int64_wrap_above by (unfold int64_max in *; lia).
    destruct (Z.leb_spec b (int64_max - (Z.of_nat (length file) - b) - 2 ^ 64));
      [unfold int64_max in *; lia|].
    destruct (Z.leb_spec int64_max b); [lia|].
    destruct (Z.ltb_spec b 0); [lia|]. cbv zeta.
    rewrite (drop_ge file) by lia. by rewrite take_nil.
Qed.

Lemma lastRange_cons file start r ranges :
  lastRange file start (r :: ranges) = lastRange file (End r) ranges.
Proof.
  unfold lastRange. f_equal. destruct ranges as [|r' ranges']; [done|].
  rewrite last_cons_cons. by destruct (last (r' :: ranges')) eqn:E; [|apply last_None in E].
Qed.

Lemma scanChunk_lines file r sec :
  sectionBytes file r = (sec, None) -> snd (scanLines [] 0 sec) = None ->
  scanChunk (Some file) r = (linesOf (chunkOf file r), None).
Proof.
  intros Hsec Herr. unfold scanChunk, chunkOf, linesOf. rewrite Hsec. simpl.
  destruct (scanLines [] 0 sec) as [tokens err]. simpl in *. by subst.
Qed.

(** The chunks of ranges that chain from [start], adjusted, and of the last
    range after them: each is scanned without error, and their lines, one
    chunk after the other, are the lines of the file from [start] on. *)
Lemma chunks_cover (file : list ascii) : forall ranges start,
  0 <= start <= 2 * Z.of_nat (length file) -> Z.of_nat (length file) < 2 ^ 62 ->
  chained start ranges ->
  Forall (adjusted file MeasurementDelimeter) ranges ->
  Forall (fun r => End r <= 2 * Z.of_nat (length file)) ranges ->
  snd (scanLines [] 0 (drop (Z.to_nat start) file)) = None ->
  Forall (fun r => scanChunk (Some file) r = (linesOf (chunkOf file r), None))
    (ranges ++ [lastRange file start ranges]) /\
  concat ((fun r => linesOf (chunkOf file r)) <$> (ranges ++ [lastRange file start ranges]))
  = linesOf (drop (Z.to_nat start) file).
Proof.
  induction ranges as [|r rs IH]; intros start Hstart Hlen Hch Hadj Hends Herr.
  - simpl. unfold lastRange. simpl.
    assert (sectionBytes file {| Begin := start; End := Z.of_nat (length file) |}
            = (drop (Z.to_nat start) file, None)) as Hsec.
    { apply sectionBytes_last; unfold int64_max; lia. }
    split.
    + constructor; [|done]. by eapply scanChunk_lines.
    + unfold chunkOf. rewrite Hsec. simpl. by rewrite app_nil_r.
  - destruct Hch as [Hb Hch].
    inversion Hadj as [|? ? (Hle & Hpos & Haft) Hadj']; subst.
    inversion Hends as [|? ? Hend Hends']; subst.
    assert (sectionBytes file r
            = (take (Z.to_nat (End r - Begin r)) (drop (Z.to_nat (Begin r)) file), None))
      as Hsec.
    { apply sectionBytes_range; [lia|]. unfold int64_max. lia. }
    set (c := take (Z.to_nat (End r - Begin r)) (drop (Z.to_nat (Begin r)) file)) in *.
    assert (drop (Z.to_nat (Begin r)) file = c ++ drop (Z.to_nat (End r)) file) as Hsplit.
    { unfold c. rewrite <- (take_drop (Z.to_nat (End r - Begin r))
                              (drop (Z.to_nat (Begin r)) file)) at 1.
      f_equal. rewrite drop_drop. f_equal. lia. }
    assert (c = [] \/ drop (Z.to_nat (End r)) file = []
            \/ last c = Some MeasurementDelimeter) as Hbound.
    { destruct (decide (End r = Begin r)) as [Heq|Hne].
      - left. unfold c. rewrite Heq, Z.sub_diag. done.
      - destruct (Z.le_gt_cases (End r) (Z.of_nat (length file))) as [Hin|Hout].
        + right. right. destruct (Haft Hin) as [_ Hdel].
          rewrite last_lookup. unfold c.
          rewrite length_take, length_drop.
          rewrite lookup_take_lt by lia.
          rewrite lookup_drop. rewrite <- Hdel. f_equal. lia.
        + right. left. apply drop_ge. lia. }
    rewrite Hsplit in Herr.
    destruct (scanLines_split _ _ Hbound Herr) as (Hc & Hrest & Hlines).
    destruct (IH (End r)) as [IH1 IH2]; try done; try lia.
    rewrite lastRange_cons, <- app_comm_cons. split.
    + constructor; [|done]. by eapply scanChunk_lines.
    + rewrite fmap_cons. cbn [concat]. rewrite IH2, Hsplit, Hlines. f_equal.
      unfold chunkOf. by rewrite Hsec.
Qed.

(** ** Tasks over well-formed chunks *)

Lemma processRecord_parsed parseFloat buffer station m32 readings sent :
  parseRecord parseFloat buffer = Some (station, m32) ->
  processRecord parseFloat buffer readings sent
  = Returns (observe readings station m32, sent).
Proof.
  unfold parseRecord, processRecord.
  destruct (scanDelimeter buffer 0 _) as [p|e|pos]; [done|done|].
  destruct (parseFloat _) as [m [e|]]; [done|]. by intros [= <- <-].
Qed.

Lemma scanLoop_wellFormed parseFloat tokens : forall readings sent,
  Forall (fun buffer => is_Some (parseRecord parseFloat buffer)) tokens ->
  scanLoop parseFloat tokens readings sent
  = (sent, Returns (observeAll readings (observationsOf parseFloat tokens))).
Proof.
  induction tokens as [|buffer tokens IH]; intros readings sent Hall; [done|].
  inversion Hall as [|? ? [[station m32] Hrec] Hall']; subst.
  simpl. rewrite (processRecord_parsed _ _ _ _ _ _ Hrec).
  unfold observationsOf. simpl. rewrite Hrec. simpl. by apply IH.
Qed.

Lemma observationsOf_app parseFloat l1 l2 :
  observationsOf parseFloat (l1 ++ l2)
  = observationsOf parseFloat l1 ++ observationsOf parseFloat l2.
Proof. unfold observationsOf. apply omap_app. Qed.

(** The task of a chunk that is scanned without error and holds well-formed
    records only: one result, without error, with the readings of the
    records of the chunk. *)
Lemma task_wellFormed parseFloat file r :
  scanChunk (Some file) r = (linesOf (chunkOf file r), None) ->
  Forall (fun buffer => is_Some (parseRecord parseFloat buffer)) (linesOf (chunkOf file r)) ->
  task parseFloat (Some file) r
  = ([readingsResult
        (observeAll ∅ (observationsOf parseFloat (linesOf (chunkOf file r))))],
     Returns tt).
Proof.
  intros Hscan Hall. unfold task, taskOn. rewrite Hscan. simpl fst.
  by rewrite scanLoop_wellFormed.
Qed.

(** ** The task after an error of the scanner *)




(** ** Arrival orders *)

Lemma interleaving_perm {A : Type} (sources : list (list A)) (out : list A) :
  interleaving sources out -> concat sources ≡ₚ out.
Proof.
  induction 1 as [sources Hall|before x l after out _ IH].
  - induction Hall as [|l sources -> _ IH]; [done|]. simpl. exact IH.
  - rewrite concat_app in *. simpl in *.
    rewrite <- Permutation_middle. by constructor.
Qed.

(** The main goroutine over ranges whose tasks all read well-formed
    chunks: whatever the order of arrival, every result is received, and
    minimum, maximum and count of each station are those of the records of
    all chunks together. *)
Lemma reduceLoop_chunks parseFloat file (ranges : list Range) channel :
  Forall (fun r => scanChunk (Some file) r = (linesOf (chunkOf file r), None)) ranges ->
  Forall (fun buffer => is_Some (parseRecord parseFloat buffer))
    (concat ((fun r => linesOf (chunkOf file r)) <$> ranges)) ->
  arrives parseFloat (Some file) ranges (Z.of_nat (length ranges)) channel ->
  exists readings,
    reduceLoop (length ranges) channel ∅ = Some (Returns readings, []) /\
    statistics <$> readings
    = observedStatistics
        (observationsOf parseFloat (concat ((fun r => linesOf (chunkOf file r)) <$> ranges))).
Proof.
  intros Hscan Hrec Harr.
  set (result := fun r =>
         readingsResult (observeAll ∅ (observationsOf parseFloat (linesOf (chunkOf file r))))).
  assert (fst <$> spawned parseFloat (Some file) ranges (Z.of_nat (length ranges))
          = (fun r => [result r]) <$> ranges) as Hsp.
  { unfold spawned. rewrite Nat2Z.id, firstn_all.
    clear Harr. induction ranges as [|r rs IH]; [done|].
    inversion Hscan as [|? ? Hr Hscan']; subst.
    rewrite fmap_cons in Hrec. cbn [concat] in Hrec.
    apply Forall_app in Hrec as [Hrec1 Hrec2].
    simpl. rewrite (task_wellFormed _ _ _ Hr Hrec1). simpl. f_equal.
    by apply IH. }
  unfold arrives in Harr.
  change (map fst (spawned parseFloat (Some file) ranges (Z.of_nat (length ranges))))
    with (fst <$> spawned parseFloat (Some file) ranges (Z.of_nat (length ranges))) in Harr.
  rewrite Hsp in Harr. apply interleaving_perm in Harr.
  assert (concat ((fun r => [result r]) <$> ranges) = result <$> ranges) as Hcat.
  { clear. induction ranges as [|r rs IH]; [done|].
    rewrite !fmap_cons. cbn [concat]. by rewrite IH. }
  rewrite Hcat in Harr.
  assert (Forall succeeded channel) as Hsucc.
  { rewrite <- Harr. apply Forall_fmap. by apply Forall_true. }
  assert (length channel = length ranges) as Hlen.
  { rewrite <- Harr. apply length_fmap. }
  eexists. split.
  { rewrite <- Hlen. by apply reduceLoop_succeeded. }
  rewrite statistics_foldl_mergeReadings, fmap_empty, mergeStatistics_empty_l.
  rewrite <- (mergeAllStatistics_perm
                ((fun m : gmap string Measurements => statistics <$> m)
                   <$> (Readings <$> (result <$> ranges)))).
  2:{ by rewrite Harr. }
  clear. induction ranges as [|r rs IH]; [done|].
  rewrite !fmap_cons. cbn [concat mergeAllStatistics foldr].
  fold (mergeAllStatistics ((fun m : gmap string Measurements => statistics <$> m)
                              <$> (Readings <$> (result <$> rs)))).
  rewrite IH, observationsOf_app, observedStatistics_app. f_equal.
  unfold result. simpl.
  by rewrite statistics_observeAll, fmap_empty, mergeStatistics_empty_l.
Qed.

Lemma interleaving_idle {A : Type} (sources : list (list A)) (out : list A) :
  interleaving sources out -> interleaving ([] :: sources) out.
Proof.
  induction 1 as [sources Hall|before x l after out _ IH].
  - constructor. by constructor.
  - exact (interleaving_next ([] :: before) x l after out IH).
Qed.

(** Task after task is one of the orders of arrival. *)
Lemma interleaving_concat {A : Type} (sources : list (list A)) :
  interleaving sources (concat sources).
Proof.
  induction sources as [|l sources IH]; [by constructor|].
  simpl. induction l as [|x l IHl]; simpl.
  - by apply interleaving_idle.
  - exact (interleaving_next [] x l sources (l ++ concat sources) IHl).
Qed.

Lemma sortedStations_statistics (a b : gmap string Measurements) :
  statistics <$> a = statistics <$> b -> sortedStations a = sortedStations b.
Proof.
  intros H. unfold sortedStations. f_equal.
  assert (forall m : gmap string Measurements,
            map fst (map_to_list m) = map fst (map_to_list (statistics <$> m))) as Hkeys.
  { intros m. rewrite map_to_list_fmap.
    change (map fst (prod_map id statistics <$> map_to_list m))
      with (fst <$> (prod_map id statistics <$> map_to_list m)).
    rewrite <- list_fmap_compose. apply list_fmap_ext. by intros ? [? ?]. }
  by rewrite (Hkeys a), (Hkeys b), H.
Qed.

(** [run] up to the formatter on a well-formed file: with any number of
    workers for which [determineRanges] returns, and any order of arrival,
    minimum, maximum and count of each station are those of the lines of
    the file. *)
Lemma aggregate_wellFormed parseFloat (file : list ascii) k fuel ranges channel :
  wellFormed parseFloat file -> Z.of_nat (length file) < 2 ^ 62 -> 1 <= k ->
  determineRanges fuel (Some file) k MeasurementDelimeter = Some (Returns ranges) ->
  arrives parseFloat (Some file) ranges k channel ->
  exists readings,
    aggregate fuel (Some file) k channel
    = Some (Returns (sortedStations readings, readings)) /\
    statistics <$> readings
    = observedStatistics (observationsOf parseFloat (linesOf file)).
Proof.
  intros [Herr Hrec] Hlen Hk Hdet Harr.
  assert (exists ranges',
             ranges = ranges' ++ [lastRange file 0 ranges'] /\
             Z.of_nat (length ranges) = k /\
             chained 0 ranges' /\
             Forall (adjusted file MeasurementDelimeter) ranges' /\
             Forall (fun r => End r <= 2 * Z.of_nat (length file)) ranges')
    as (ranges' & Heq & Hlenr & Hch & Hadj & Hends).
  { destruct (decide (k = 1)) as [->|Hne].
    - exists []. unfold determineRanges in Hdet. simpl in Hdet.
      injection Hdet as <-. done.
    - destruct (determineRanges_shape fuel file MeasurementDelimeter k ranges)
        as (ranges' & rlast & Heq & Hl & Hlast & Hshape); [lia|done|done|done|].
      exists ranges'. split.
      { unfold lastRange. by rewrite Hlast. }
      split; [|done]. rewrite Heq, length_app. simpl. lia. }
  destruct (chunks_cover file ranges' 0) as [Hscan Hlines]; try done; try lia.
  rewrite <- Heq in Hscan, Hlines. simpl in Hlines.
  rewrite <- Hlenr in Harr.
  destruct (reduceLoop_chunks parseFloat file ranges channel) as (readings & Hred & Hstat);
    [done| |done|].
  { by rewrite Hlines. }
  exists readings. split.
  - unfold aggregate. rewrite Hdet.
    destruct (Z.ltb_spec k 0); [lia|].
    rewrite <- Hlenr, Nat2Z.id, Hred. done.
  - by rewrite Hstat, Hlines.
Qed.

(** C3 (the claim as it stands does not hold): on a well-formed file of
    three records of one station, with the values [2 ^ 24], 1 and 1, one
    worker adds the values in the order of the file and two workers add
    the sums of their chunks: the sums differ, and so do the means and the
    lines that [run] prints. *)
Lemma aggregate_changes_mean :
  wellFormed parseDecimal largeAndSmall /\
  determineRanges 16 (Some largeAndSmall) 2 MeasurementDelimeter
  = Some (Returns twoHalves) /\
  arrives parseDecimal (Some largeAndSmall) (wholeFile largeAndSmall) 1
    (inOrder parseDecimal (Some largeAndSmall) (wholeFile largeAndSmall) 1) /\
  arrives parseDecimal (Some largeAndSmall) twoHalves 2
    (inOrder parseDecimal (Some largeAndSmall) twoHalves 2) /\
  exists readings1 readings2,
    aggregate 16 (Some largeAndSmall) 1
      (inOrder parseDecimal (Some largeAndSmall) (wholeFile largeAndSmall) 1)
    = Some (Returns (["A"%string], readings1)) /\
    aggregate 16 (Some largeAndSmall) 2
      (inOrder parseDecimal (Some largeAndSmall) twoHalves 2)
    = Some (Returns (["A"%string], readings2)) /\
    meanOf <$> (readings1 !! "A"%string) <> meanOf <$> (readings2 !! "A"%string) /\
    run formatTenths 16 (Some largeAndSmall) 1
      (inOrder parseDecimal (Some largeAndSmall) (wholeFile largeAndSmall) 1)
    = Some (Returns "{A=1.0/5592405.5/16777216.0}"%string) /\
    run formatTenths 16 (Some largeAndSmall) 2
      (inOrder parseDecimal (Some largeAndSmall) twoHalves 2)
    = Some (Returns "{A=1.0/5592406.0/16777216.0}"%string).
Proof.
  split.
  { split; [vm_compute; reflexivity|].
    replace (linesOf largeAndSmall)
      with [bytes "A;16777216"; bytes "A;1.0"; bytes "A;1.0"]
      by (vm_compute; reflexivity).
    repeat constructor; (eexists; vm_compute; reflexivity). }
  split; [vm_compute; reflexivity|].
  split; [apply interleaving_concat|]. split; [apply interleaving_concat|].
  eexists _, _. split; [vm_compute; reflexivity|].
  split; [vm_compute; reflexivity|].
  split; [vm_compute; discriminate|].
  split; vm_compute; reflexivity.
Qed.

(** C3 (amended): for a well-formed file, a worker count for which
    [determineRanges] returns, and any orders of arrival, [run] hands the
    formatter the same sorted stations with one worker as with that
    count, and for each station the same minimum, maximum and count.  The
    sums, and with them the means, are left out: they depend on the
    chunks. *)
Theorem aggregate_same_statistics
    (parseFloat : string -> float32 * option error) (file : list ascii)
    (k : Z) (fuel : nat) (ranges : list Range)
    (channel1 channelk : list AggregationResult) :
  wellFormed parseFloat file -> Z.of_nat (length file) < 2 ^ 62 -> 1 <= k ->
  determineRanges fuel (Some file) k MeasurementDelimeter = Some (Returns ranges) ->
  arrives parseFloat (Some file) (wholeFile file) 1 channel1 ->
  arrives parseFloat (Some file) ranges k channelk ->
  exists stations readings1 readingsk,
    aggregate fuel (Some file) 1 channel1 = Some (Returns (stations, readings1)) /\
    aggregate fuel (Some file) k channelk = Some (Returns (stations, readingsk)) /\
    sameStatistics readings1 readingsk.
Proof.
  intros Hwf Hlen Hk Hdet Harr1 Harrk.
  destruct (aggregate_wellFormed parseFloat file 1 fuel (wholeFile file) channel1)
    as (readings1 & Hagg1 & Hstat1); [done|done|lia|done|done|].
  destruct (aggregate_wellFormed parseFloat file k fuel ranges channelk)
    as (readingsk & Haggk & Hstatk); [done|done|done|done|done|].
  exists (sortedStations readings1), readings1, readingsk.
  split; [done|]. split.
  - rewrite Haggk. do 3 f_equal. symmetry.
    apply sortedStations_statistics. by rewrite Hstat1, Hstatk.
  - apply sameStatistics_fmap. by rewrite Hstat1, Hstatk.
Qed.

Lemma aggregate_same_statistics_witness :
  wellFormed parseDecimal largeAndSmall /\
  Z.of_nat (length largeAndSmall) < 2 ^ 62 /\
  determineRanges 16 (Some largeAndSmall) 2 MeasurementDelimeter
  = Some (Returns twoHalves) /\
  exists stations readings1 readings2,
    aggregate 16 (Some largeAndSmall) 1
      (inOrder parseDecimal (Some largeAndSmall) (wholeFile largeAndSmall) 1)
    = Some (Returns (stations, readings1)) /\
    aggregate 16 (Some largeAndSmall) 2
      (inOrder parseDecimal (Some largeAndSmall) twoHalves 2)
    = Some (Returns (stations, readings2)) /\
    sameStatistics readings1 readings2.
Proof.
  assert (wellFormed parseDecimal largeAndSmall) as H1.
  { split; [vm_compute; reflexivity|].
    replace (linesOf largeAndSmall)
      with [bytes "A;16777216"; bytes "A;1.0"; bytes "A;1.0"]
      by (vm_compute; reflexivity).
    repeat constructor; (eexists; vm_compute; reflexivity). }
  assert (Z.of_nat (length largeAndSmall) < 2 ^ 62) as H2 by (vm_compute; reflexivity).
  assert (determineRanges 16 (Some largeAndSmall) 2 MeasurementDelimeter
          = Some (Returns twoHalves)) as H3 by (vm_compute; reflexivity).
  assert (1 <= 2) as H4 by lia.
  split; [exact H1|]. split; [exact H2|]. split; [exact H3|].
  exact (aggregate_same_statistics parseDecimal largeAndSmall 2 16 twoHalves
           _ _ H1 H2 H4 H3
           (interleaving_concat _) (interleaving_concat _)).
Defined.

(** ** The examples of the specification *)

Example run_spec_example :
  run formatTenths 1 (Some specExample) 1
    (inOrder parseDecimal (Some specExample) (wholeFile specExample) 1)
  = Some (Returns "{A=10.0/15.0/20.0, B=-5.5/-5.5/-5.5}"%string).
Proof. vm_compute. reflexivity. Qed.

Example determineRanges_three_bytes_ten_workers :
  forall fuel,
    determineRanges fuel (Some (bytes "abc")) 10 MeasurementDelimeter
    = Some (Fails (ErrNumRanges 10 3)).
Proof. reflexivity. Qed.

Example run_not_a_number :
  run formatTenths 1 (Some (bytes ("A;notanumber" ++ nl))) 1
    (inOrder parseDecimal (Some (bytes ("A;notanumber" ++ nl)))
       (wholeFile (bytes ("A;notanumber" ++ nl))) 1)
  = Some (Fails (ErrSyntax "notanumber")).
Proof. vm_compute. reflexivity. Qed.

(* ================================================================== *)
(** * Further properties of [determineRanges] *)

Section PartitionCases.

Variable file : list ascii.
Variable delim : ascii.

Let len : Z := Z.of_nat (length file).

(** From an end inside the file, a file without delimiter keeps the loop
    running whatever the buffer holds. *)
Lemma adjustEnd_diverges_inside fuel f b e :
  content f = file -> 0 <= e < len -> delim ∉ file ->
  adjustEnd fuel delim f b e = None.
Proof.
  intros Hf He Hno. destruct fuel as [|fuel]; [done|]. simpl.
  destruct (lookup_lt_is_Some_2 file (Z.to_nat e)) as [c Hc]; [unfold len in *; lia|].
  rewrite (readByte_inside file f b e c) by (done || lia).
  assert (c <> delim) as Hne.
  { intros ->. apply Hno. by eapply list_elem_of_lookup_2. }
  assert (byte_eqb c delim = false) as -> by by apply byte_eqb_neq.
  by apply (adjustEnd_diverges file).
Qed.

Lemma approxSize_bounds n :
  2 <= n <= len ->
  1 <= len `quot` n /\ n * (len `quot` n) <= len /\ len `quot` n < len.
Proof.
  intros Hn.
  assert (1 <= len `quot` n /\ n * (len `quot` n) <= len) as [H1 H2].
  { rewrite Z.quot_div_nonneg by lia. split.
    - apply Z.div_le_lower_bound; lia.
    - apply Z.mul_div_le. lia. }
  split; [done|]. split; [done|]. nia.
Qed.

(** The three cases of a file for the first range: a delimiter among the
    first [approxSize + 1] bytes, the first delimiter further on, or no
    delimiter at all. *)
Lemma first_delimiter_cases (a : Z) :
  0 <= a ->
  (exists d, 0 <= d <= a /\ file !! Z.to_nat d = Some delim) \/
  (exists d, a < d < len /\ file !! Z.to_nat d = Some delim /\
             forall j, 0 <= j < d -> file !! Z.to_nat j <> Some delim) \/
  delim ∉ file.
Proof.
  intros Ha.
  destruct (list_find (fun c => c = delim) file) as [[d c]|] eqn:Efind.
  - apply list_find_Some in Efind as (Hd & -> & Hfirst).
    assert (Z.of_nat d < len) as Hdlen.
    { apply lookup_lt_Some in Hd. unfold len. lia. }
    assert (file !! Z.to_nat (Z.of_nat d) = Some delim) as Hd'
      by by rewrite Nat2Z.id.
    destruct (Z.le_gt_cases (Z.of_nat d) a) as [Hin|Hout].
    + left. exists (Z.of_nat d). split; [lia|done].
    + right. left. exists (Z.of_nat d). split; [lia|]. split; [done|].
      intros j Hj Hdel. apply (Hfirst (Z.to_nat j) delim); [done|lia|done].
  - right. right. apply list_find_None in Efind.
    intros Hin. rewrite Forall_forall in Efind. exact (Efind delim Hin eq_refl).
Qed.

(** [determineRanges_returns] with the ends bounded by the number of
    ranges before them: range [i] ends at most [(i + 1) * (approxSize + 1)]
    bytes into the file, so all of them at most [(n - 1) * (approxSize + 1)]. *)
Lemma determineRanges_returns_tight fuel n d0 :
  2 <= n <= len -> len < 2 ^ 62 ->
  0 <= d0 <= len `quot` n -> file !! Z.to_nat d0 = Some delim ->
  (Z.to_nat (len `quot` n) + 1 < fuel)%nat ->
  exists ranges rlast,
    determineRanges fuel (Some file) n delim
    = Some (Returns (ranges ++ [{| Begin := End rlast; End := len |}])) /\
    Z.of_nat (length ranges) = n - 1 /\
    last ranges = Some rlast /\
    chained 0 ranges /\
    Forall (adjusted file delim) ranges /\
    Forall (fun r => End r <= (n - 1) * (len `quot` n + 1)) ranges.
Proof.
  intros Hn Hlen Hd0 Hdel Hfuel.
  destruct (approxSize_bounds n Hn) as (Ha1 & Ha2 & Ha3).
  set (approxSize := len `quot` n) in *.
  unfold determineRanges.
  change (offset (seekEnd (openFile file))) with len.
  destruct (Z.eqb_spec n 1); [lia|]. destruct (Z.eqb_spec n 0); [lia|].
  fold approxSize. destruct (Z.eqb_spec approxSize 0); [lia|].
  destruct (adjustEnd_first file delim fuel (seekEnd (openFile file)) "000"%char
              approxSize d0)
    as (f1 & e0 & Hadj & Hf1 & He0 & Haft); try done; try lia.
  { fold len. unfold int64_max. lia. }
  rewrite Hadj.
  change (lastEnd [{| Begin := 0; End := e0 |}]) with (Returns (A:=Z) e0).
  cbv beta iota.
  assert (1 <= e0) as He0' by apply Haft.
  destruct (Z.ltb_spec e0 0); [lia|].
  set (first := {| Begin := 0; End := e0 |}).
  rewrite int64_wrap_id by (unfold int64_min, int64_max; lia).
  destruct (middleRanges_spec file delim fuel approxSize (Z.to_nat (n - 1 - 1)) 1
              f1 [first] first)
    as (f2 & added & Hmid & Hlenadd & Hch & Hall & Hends); try done; try lia.
  { simpl. unfold int64_max. nia. }
  { unfold int64_max. lia. }
  rewrite Hmid.
  assert (exists rlast, last ([first] ++ added) = Some rlast) as [rlast Hrl].
  { destruct (last ([first] ++ added)) eqn:E; [by eexists|].
    apply last_None in E. done. }
  unfold lastEnd. rewrite Hrl.
  exists ([first] ++ added), rlast.
  split; [done|]. split; [rewrite length_app; simpl; lia|]. split; [done|].
  split; [|split].
  - simpl. split; [done|]. done.
  - constructor; [|done]. unfold adjusted. simpl.
    split; [lia|]. split; [lia|]. done.
  - constructor; [simpl; nia|].
    eapply Forall_impl; [exact Hends|]. simpl. intros r Hr. nia.
Qed.

(** What [determineRanges] returns for two workers or more, whatever the
    fuel and whatever the delimiter. *)
Lemma determineRanges_returned fuel n ranges :
  2 <= n -> len < 2 ^ 62 ->
  determineRanges fuel (Some file) n delim = Some (Returns ranges) ->
  exists ranges' rlast,
    ranges = ranges' ++ [{| Begin := End rlast; End := len |}] /\
    Z.of_nat (length ranges') = n - 1 /\
    last ranges' = Some rlast /\
    chained 0 ranges' /\
    Forall (adjusted file delim) ranges'.
Proof.
  intros Hn Hlen Hret.
  assert (n <= len) as Hnlen.
  { destruct (Z.le_gt_cases n len) as [|Hgt]; [done|]. exfalso.
    unfold determineRanges in Hret.
    change (offset (seekEnd (openFile file))) with len in Hret.
    destruct (Z.eqb_spec n 1); [lia|]. destruct (Z.eqb_spec n 0); [lia|].
    rewrite Z.quot_small in Hret by (unfold len in *; lia). done. }
  destruct (approxSize_bounds n ltac:(lia)) as (Ha1 & Ha2 & Ha3).
  destruct (first_delimiter_cases (len `quot` n) ltac:(lia))
    as [(d & Hd & Hdel)|[(d & Hd & Hdel & Hno)|Hno]].
  - set (big := (fuel + Z.to_nat (len `quot` n) + 2)%nat).
    pose proof (determineRanges_mono _ big _ _ _ _ Hret ltac:(lia)) as Hbig.
    destruct (determineRanges_returns_tight big n d)
      as (ranges' & rlast & Heq & Hl & Hlast & Hch & Hadj & _);
      [lia|done|done|done|unfold big; lia|].
    rewrite Heq in Hbig. injection Hbig as <-.
    by exists ranges', rlast.
  - exfalso.
    set (big := (fuel + Z.to_nat d + Z.to_nat (len `quot` n) + 2)%nat).
    pose proof (determineRanges_mono _ big _ _ _ _ Hret ltac:(lia)) as Hbig.
    rewrite (determineRanges_underflow_fails file delim big n d) in Hbig;
      [done|unfold len in *; lia|done|done|done|done|unfold big, len in *; lia].
  - exfalso. unfold determineRanges in Hret.
    change (offset (seekEnd (openFile file))) with len in Hret.
    destruct (Z.eqb_spec n 1); [lia|]. destruct (Z.eqb_spec n 0); [lia|].
    destruct (Z.eqb_spec (len `quot` n) 0); [lia|].
    rewrite adjustEnd_diverges_inside in Hret; [done|done|lia|done].
Qed.

End PartitionCases.

(** Ranges that chain from [start], none of them inverted: they reach their
    last end without gap and without overlap. *)
Lemma chained_cover ranges : forall start,
  chained start ranges -> Forall (fun r => Begin r <= End r) ranges ->
  start <= default start (End <$> last ranges) /\
  (forall p, start <= p < default start (End <$> last ranges) ->
     exists i r, ranges !! i = Some r /\ inRange p r) /\
  (forall p (i : nat) r, ranges !! i = Some r -> inRange p r ->
     start <= p < default start (End <$> last ranges)) /\
  (forall p (i j : nat) r r', ranges !! i = Some r -> ranges !! j = Some r' ->
     inRange p r -> inRange p r' -> i = j).
Proof.
  induction ranges as [|r rs IH]; intros start Hch Hmono.
  - simpl. split; [lia|]. split; [intros p Hp; lia|]. split; by intros.
  - destruct Hch as [Hb Hch]. inversion Hmono as [|? ? Hr Hmono']; subst.
    destruct (IH (End r) Hch Hmono') as (Hle & Hcov & Hin & Huniq).
    assert (default (Begin r) (End <$> last (r :: rs))
            = default (End r) (End <$> last rs)) as ->.
    { destruct rs as [|r' rs']; [done|]. rewrite last_cons_cons.
      by destruct (last (r' :: rs')) eqn:E; [|apply last_None in E]. }
    split; [lia|]. split; [|split].
    + intros p Hp. destruct (Z.lt_ge_cases p (End r)) as [Hlt|Hge].
      * exists 0%nat, r. split; [done|]. unfold inRange. lia.
      * destruct (Hcov p ltac:(lia)) as (i & r' & Hi & Hp').
        by exists (S i), r'.
    + intros p [|i] r' Hi Hp.
      * injection Hi as <-. unfold inRange in Hp. lia.
      * specialize (Hin p i r' Hi Hp). lia.
    + intros p [|i] [|j] r1 r2 Hi Hj Hp1 Hp2; [done| | |].
      * injection Hi as <-. specialize (Hin p j r2 Hj Hp2).
        unfold inRange in Hp1. lia.
      * injection Hj as <-. specialize (Hin p i r1 Hi Hp1).
        unfold inRange in Hp2. lia.
      * f_equal. by eapply Huniq.
Qed.

Lemma chained_begin_nonneg ranges : forall start,
  chained start ranges -> 0 <= start ->
  Forall (fun r => Begin r <= End r) ranges ->
  forall (i : nat) r, ranges !! i = Some r -> 0 <= Begin r.
Proof.
  induction ranges as [|r0 rs IH]; intros start Hch Hs Hm i r Hi;
    [by destruct i|].
  destruct Hch as [Hb Hch]. inversion Hm; subst.
  destruct i as [|i]; simpl in Hi.
  - injection Hi as <-. lia.
  - eapply (IH (End r0)); [done|lia|done|done].
Qed.

Lemma chained_snoc start ranges r :
  chained start ranges -> Begin r = default start (End <$> last ranges) ->
  chained start (ranges ++ [r]).
Proof.
  intros Hch Hb. eapply chained_app; [done|done|]. simpl. done.
Qed.

(** X1: whenever [determineRanges] returns ranges for [n] workers, with or
    without an end past the end of the file, there are [n] of them, the
    first begins at 0, each begins where the one before it ends, the last
    ends at the length of the file, and none but the last can be
    inverted or end at 0. *)
Theorem determineRanges_contiguous (fuel : nat) (file : list ascii) (n : Z)
    (delim : ascii) (ranges : list Range) :
  1 <= n -> Z.of_nat (length file) < 2 ^ 62 ->
  determineRanges fuel (Some file) n delim = Some (Returns ranges) ->
  Z.of_nat (length ranges) = n /\
  chained 0 ranges /\
  End <$> last ranges = Some (Z.of_nat (length file)) /\
  forall (i : nat) r, ranges !! i = Some r -> (S i < length ranges)%nat ->
    Begin r <= End r /\ 1 <= End r.
Proof.
  intros Hn Hlen Hret. destruct (decide (n = 1)) as [->|Hne].
  - unfold determineRanges in Hret. simpl in Hret. injection Hret as <-.
    split; [done|]. split; [done|]. split; [done|].
    intros i r Hi Hlt. simpl in Hlt. lia.
  - destruct (determineRanges_returned file delim fuel n ranges)
      as (ranges' & rlast & -> & Hl & Hlast & Hch & Hadj); [lia|done|done|].
    split; [rewrite length_app; simpl; lia|]. split.
    { apply chained_snoc; [done|]. by rewrite Hlast. }
    split; [by rewrite last_snoc|].
    intros i r Hi Hlt. rewrite length_app in Hlt. simpl in Hlt.
    rewrite lookup_app_l in Hi by lia.
    rewrite Forall_forall in Hadj.
    destruct (Hadj r) as (H1 & H2 & _); [by eapply list_elem_of_lookup_2|done].
Qed.

Lemma determineRanges_contiguous_witness :
  1 <= 3 /\ Z.of_nat (length threeRecords) < 2 ^ 62 /\
  determineRanges 8 (Some threeRecords) 3 MeasurementDelimeter
  = Some (Returns [{| Begin := 0; End := 4 |}; {| Begin := 4; End := 8 |};
                   {| Begin := 8; End := 11 |}]) /\
  chained 0 [{| Begin := 0; End := 4 |}; {| Begin := 4; End := 8 |};
             {| Begin := 8; End := 11 |}].
Proof.
  assert (1 <= 3) as H1 by lia.
  assert (Z.of_nat (length threeRecords) < 2 ^ 62) as H2 by (vm_compute; reflexivity).
  assert (determineRanges 8 (Some threeRecords) 3 MeasurementDelimeter
          = Some (Returns [{| Begin := 0; End := 4 |}; {| Begin := 4; End := 8 |};
                           {| Begin := 8; End := 11 |}])) as H3
    by (vm_compute; reflexivity).
  split; [exact H1|]. split; [exact H2|]. split; [exact H3|].
  exact (proj1 (proj2 (determineRanges_contiguous 8 threeRecords 3
                         MeasurementDelimeter _ H1 H2 H3))).
Defined.

(** X2: when the ranges that [determineRanges] returns all end inside the
    file, they are a partition of it on record boundaries: every range lies
    in [[0, L]] and is not inverted, every offset of the file lies in one
    range and in one only, no offset outside the file lies in any, and
    every end but the last is one past a delimiter. *)
Theorem determineRanges_within_file_partitions (fuel : nat) (file : list ascii)
    (n : Z) (delim : ascii) (ranges : list Range) :
  1 <= n -> Z.of_nat (length file) < 2 ^ 62 ->
  determineRanges fuel (Some file) n delim = Some (Returns ranges) ->
  Forall (fun r => End r <= Z.of_nat (length file)) ranges ->
  Forall (fun r => 0 <= Begin r <= End r /\ End r <= Z.of_nat (length file)) ranges /\
  (forall p, 0 <= p < Z.of_nat (length file) <->
             exists i r, ranges !! i = Some r /\ inRange p r) /\
  (forall p (i j : nat) r r', ranges !! i = Some r -> ranges !! j = Some r' ->
     inRange p r -> inRange p r' -> i = j) /\
  (forall (i : nat) r, ranges !! i = Some r -> (S i < length ranges)%nat ->
     afterDelimiter file delim (End r)).
Proof.
  intros Hn Hlen Hret Hends.
  assert (chained 0 ranges /\ Forall (fun r => Begin r <= End r) ranges /\
          End <$> last ranges = Some (Z.of_nat (length file)) /\
          (forall (i : nat) r, ranges !! i = Some r -> (S i < length ranges)%nat ->
             afterDelimiter file delim (End r)))
    as (Hch & Hmono & Hlast & Haft).
  { destruct (decide (n = 1)) as [->|Hne].
    - change (determineRanges fuel (Some file) 1 delim)
        with (Some (Returns [{| Begin := 0; End := Z.of_nat (length file) |}])) in Hret.
      injection Hret as <-.
      split; [done|]. split; [constructor; [simpl; lia|done]|]. split; [done|].
      intros i r Hi Hlt. simpl in Hlt. lia.
    - destruct (determineRanges_returned file delim fuel n ranges)
        as (ranges' & rlast & -> & Hl & Hlast & Hch & Hadj); [lia|done|done|].
      apply Forall_app in Hends as [Hends _].
      assert (End rlast <= Z.of_nat (length file)) as Hrl.
      { rewrite Forall_forall in Hends. apply Hends.
        rewrite last_lookup in Hlast. by eapply list_elem_of_lookup_2. }
      split; [apply chained_snoc; [done|by rewrite Hlast]|]. split.
      { apply Forall_app. split.
        - eapply Forall_impl; [exact Hadj|]. by intros r (? & _).
        - constructor; [simpl; lia|done]. }
      split; [by rewrite last_snoc|].
      intros i r Hi Hlt. rewrite length_app in Hlt. simpl in Hlt.
      rewrite lookup_app_l in Hi by lia.
      rewrite Forall_forall in Hadj, Hends.
      assert (r ∈ ranges') as Hr by by eapply list_elem_of_lookup_2.
      destruct (Hadj r Hr) as (_ & _ & H3). apply H3. by apply Hends. }
  destruct (chained_cover ranges 0 Hch Hmono) as (Hle & Hcov & Hin & Huniq).
  destruct (last ranges) as [rl|] eqn:El; [|done].
  simpl in Hlast, Hle, Hcov, Hin. injection Hlast as Hlast.
  rewrite Hlast in Hle, Hcov, Hin.
  split; [|split; [|split; [exact Huniq|exact Haft]]].
  - rewrite Forall_forall. intros r Hr.
    apply list_elem_of_lookup_1 in Hr as [i Hi].
    pose proof (chained_begin_nonneg ranges 0 Hch ltac:(lia) Hmono i r Hi) as Hb.
    rewrite Forall_forall in Hmono, Hends.
    assert (r ∈ ranges) as Hr by by eapply list_elem_of_lookup_2.
    specialize (Hmono r Hr). specialize (Hends r Hr). lia.
  - intros p. split; [apply Hcov|]. intros (i & r & Hi & Hp). by eapply Hin.
Qed.

Lemma determineRanges_within_file_partitions_witness :
  1 <= 3 /\ Z.of_nat (length threeRecords) < 2 ^ 62 /\
  determineRanges 8 (Some threeRecords) 3 MeasurementDelimeter
  = Some (Returns [{| Begin := 0; End := 4 |}; {| Begin := 4; End := 8 |};
                   {| Begin := 8; End := 11 |}]) /\
  Forall (fun r => End r <= Z.of_nat (length threeRecords))
    [{| Begin := 0; End := 4 |}; {| Begin := 4; End := 8 |};
     {| Begin := 8; End := 11 |}] /\
  Forall (fun r => 0 <= Begin r <= End r /\ End r <= Z.of_nat (length threeRecords))
    [{| Begin := 0; End := 4 |}; {| Begin := 4; End := 8 |};
     {| Begin := 8; End := 11 |}].
Proof.
  assert (1 <= 3) as H1 by lia.
  assert (Z.of_nat (length threeRecords) < 2 ^ 62) as H2 by (vm_compute; reflexivity).
  assert (determineRanges 8 (Some threeRecords) 3 MeasurementDelimeter
          = Some (Returns [{| Begin := 0; End := 4 |}; {| Begin := 4; End := 8 |};
                           {| Begin := 8; End := 11 |}])) as H3
    by (vm_compute; reflexivity).
  assert (Forall (fun r => End r <= Z.of_nat (length threeRecords))
            [{| Begin := 0; End := 4 |}; {| Begin := 4; End := 8 |};
             {| Begin := 8; End := 11 |}]) as H4.
  { repeat constructor; vm_compute; discriminate. }
  split; [exact H1|]. split; [exact H2|]. split; [exact H3|]. split; [exact H4|].
  exact (proj1 (determineRanges_within_file_partitions 8 threeRecords 3
                  MeasurementDelimeter _ H1 H2 H3 H4)).
Defined.

(** X3: with at least [n - 1] bytes for each of the [n] workers and a
    delimiter among the first [approxSize + 1] bytes, [determineRanges]
    returns, after at most [approxSize + 2] turns of any of its loops, [n]
    ranges that all end inside the file. *)
Theorem determineRanges_enough_bytes_per_worker (fuel : nat) (file : list ascii)
    (n : Z) (delim : ascii) (d0 : Z) :
  2 <= n -> n - 1 <= Z.of_nat (length file) `quot` n ->
  Z.of_nat (length file) < 2 ^ 62 ->
  0 <= d0 <= Z.of_nat (length file) `quot` n ->
  file !! Z.to_nat d0 = Some delim ->
  (Z.to_nat (Z.of_nat (length file) `quot` n) + 1 < fuel)%nat ->
  exists ranges,
    determineRanges fuel (Some file) n delim = Some (Returns ranges) /\
    Z.of_nat (length ranges) = n /\
    Forall (fun r => End r <= Z.of_nat (length file)) ranges.
Proof.
  intros Hn Hper Hlen Hd0 Hdel Hfuel.
  assert (n <= Z.of_nat (length file)) as Hnlen.
  { destruct (Z.le_gt_cases n (Z.of_nat (length file))) as [|Hgt]; [done|].
    rewrite Z.quot_small in Hper by lia. lia. }
  destruct (approxSize_bounds file n ltac:(lia)) as (Ha1 & Ha2 & Ha3).
  destruct (determineRanges_returns_tight file delim fuel n d0)
    as (ranges & rlast & Heq & Hl & Hlast & Hch & Hadj & Hends);
    [lia|done|done|done|done|].
  eexists. split; [exact Heq|]. split.
  - rewrite length_app. simpl. lia.
  - apply Forall_app. split.
    + eapply Forall_impl; [exact Hends|]. simpl. intros r Hr. nia.
    + constructor; [simpl; lia|done].
Qed.

Lemma determineRanges_enough_bytes_per_worker_witness :
  2 <= 3 /\ 3 - 1 <= Z.of_nat (length threeRecords) `quot` 3 /\
  Z.of_nat (length threeRecords) < 2 ^ 62 /\
  0 <= 3 <= Z.of_nat (length threeRecords) `quot` 3 /\
  threeRecords !! Z.to_nat 3 = Some MeasurementDelimeter /\
  (Z.to_nat (Z.of_nat (length threeRecords) `quot` 3) + 1 < 8)%nat /\
  exists ranges,
    determineRanges 8 (Some threeRecords) 3 MeasurementDelimeter
    = Some (Returns ranges) /\
    Z.of_nat (length ranges) = 3 /\
    Forall (fun r => End r <= Z.of_nat (length threeRecords)) ranges.
Proof.
  assert (2 <= 3) as H1 by lia.
  assert (3 - 1 <= Z.of_nat (length threeRecords) `quot` 3) as H2
    by (vm_compute; discriminate).
  assert (Z.of_nat (length threeRecords) < 2 ^ 62) as H3 by (vm_compute; reflexivity).
  assert (0 <= 3 <= Z.of_nat (length threeRecords) `quot` 3) as H4
    by (split; vm_compute; discriminate).
  assert (threeRecords !! Z.to_nat 3 = Some MeasurementDelimeter) as H5
    by reflexivity.
  assert (Z.to_nat (Z.of_nat (length threeRecords) `quot` 3) + 1 < 8)%nat as H6
    by (vm_compute; lia).
  split; [exact H1|]. split; [exact H2|]. split; [exact H3|]. split; [exact H4|].
  split; [exact H5|]. split; [exact H6|].
  exact (determineRanges_enough_bytes_per_worker 8 threeRecords 3
           MeasurementDelimeter 3 H1 H2 H3 H4 H5 H6).
Defined.

(** X4: when the first delimiter of the file lies at [d], past the first
    [approxSize + 1] bytes, the end of the first range is decremented below
    the start of the file, the reads go on forwards from the second byte,
    and [determineRanges] fails with the invalid end [1 - d]. *)
Theorem determineRanges_first_range_underflow (fuel : nat) (file : list ascii)
    (n : Z) (delim : ascii) (d : Z) :
  2 <= n <= Z.of_nat (length file) -> Z.of_nat (length file) < 2 ^ 62 ->
  Z.of_nat (length file) `quot` n < d < Z.of_nat (length file) ->
  file !! Z.to_nat d = Some delim ->
  (forall j, 0 <= j < d -> file !! Z.to_nat j <> Some delim) ->
  (Z.to_nat d + Z.to_nat (Z.of_nat (length file) `quot` n) + 1 < fuel)%nat ->
  determineRanges fuel (Some file) n delim
  = Some (Fails (ErrInvalidRangeEnd (1 - d))).
Proof. apply determineRanges_underflow_fails. Qed.

Lemma determineRanges_first_range_underflow_witness :
  determineRanges 8 (Some (bytes ("a;1" ++ nl))) 2 MeasurementDelimeter
  = Some (Fails (ErrInvalidRangeEnd (1 - 3))).
Proof.
  apply (determineRanges_first_range_underflow 8 (bytes ("a;1" ++ nl)) 2
           MeasurementDelimeter 3).
  - vm_compute. split; discriminate.
  - vm_compute. reflexivity.
  - vm_compute. split; reflexivity.
  - reflexivity.
  - intros j Hj.
    assert (j = 0 \/ j = 1 \/ j = 2) as [-> | [-> | ->]] by lia;
      vm_compute; discriminate.
  - vm_compute. lia.
Defined.

(** X5: on a file without any delimiter, with two workers or more and no
    more workers than bytes, [determineRanges] never returns: neither
    ranges nor an error. *)
Theorem determineRanges_without_delimiter_never_returns (fuel : nat)
    (file : list ascii) (n : Z) (delim : ascii) :
  2 <= n <= Z.of_nat (length file) -> delim ∉ file ->
  determineRanges fuel (Some file) n delim = None.
Proof.
  intros Hn Hno.
  destruct (approxSize_bounds file n Hn) as (Ha1 & Ha2 & Ha3).
  unfold determineRanges.
  change (offset (seekEnd (openFile file))) with (Z.of_nat (length file)).
  destruct (Z.eqb_spec n 1); [lia|]. destruct (Z.eqb_spec n 0); [lia|].
  destruct (Z.eqb_spec (Z.of_nat (length file) `quot` n) 0); [lia|].
  by rewrite (adjustEnd_diverges_inside file delim); [|done|lia|done].
Qed.

Lemma determineRanges_without_delimiter_never_returns_witness :
  2 <= 3 <= Z.of_nat (length (bytes "abcdef")) /\
  determineRanges 1000 (Some (bytes "abcdef")) 3 ";"%char = None.
Proof.
  assert (2 <= 3 <= Z.of_nat (length (bytes "abcdef"))) as H1
    by (vm_compute; split; discriminate).
  split; [exact H1|].
  apply (determineRanges_without_delimiter_never_returns 1000 (bytes "abcdef") 3
           ";"%char H1).
  unfold bytes. simpl. rewrite !elem_of_cons, elem_of_nil. intros Hin.
  repeat destruct Hin as [Hin|Hin]; done.
Defined.

(** X6: with more workers than bytes, and a worker count other than 1,
    [determineRanges] fails before it reads the file; so it does on an
    empty file, and for a negative count of larger magnitude than the
    length. *)
Theorem determineRanges_more_workers_than_bytes (fuel : nat) (file : list ascii)
    (n : Z) (delim : ascii) :
  n <> 1 -> Z.of_nat (length file) < Z.abs n ->
  determineRanges fuel (Some file) n delim
  = Some (Fails (ErrNumRanges n (Z.of_nat (length file)))).
Proof.
  intros Hn1 Hlt. unfold determineRanges.
  change (offset (seekEnd (openFile file))) with (Z.of_nat (length file)).
  destruct (Z.eqb_spec n 1); [done|]. destruct (Z.eqb_spec n 0); [lia|].
  assert (Z.of_nat (length file) `quot` n = 0) as ->.
  { apply Z.quot_small_iff; [done|]. lia. }
  done.
Qed.

Lemma determineRanges_more_workers_than_bytes_witness :
  determineRanges 0 (Some []) 2 MeasurementDelimeter
  = Some (Fails (ErrNumRanges 2 0)) /\
  determineRanges 0 (Some (bytes "abc")) (-4) MeasurementDelimeter
  = Some (Fails (ErrNumRanges (-4) 3)).
Proof.
  split.
  - apply (determineRanges_more_workers_than_bytes 0 [] 2 MeasurementDelimeter);
      [discriminate|vm_compute; reflexivity].
  - apply (determineRanges_more_workers_than_bytes 0 (bytes "abc") (-4)
             MeasurementDelimeter); [discriminate|vm_compute; reflexivity].
Defined.

(* ================================================================== *)
(** * Further properties of [task] *)

Lemma scanLoop_results parseFloat tokens : forall readings sent sent' readings',
  scanLoop parseFloat tokens readings sent = (sent', Returns readings') ->
  sent' = sent ++ (errorResult <$> omap (recordError parseFloat) tokens) /\
  readings' = observeAll readings (omap (recordValue parseFloat) tokens).
Proof.
  induction tokens as [|buffer tokens IH]; intros readings sent sent' readings' H.
  - simpl in H. injection H as <- <-. by rewrite app_nil_r.
  - simpl in H. unfold processRecord in H. simpl omap.
    unfold recordError at 1, recordValue at 1.
    destruct (scanDelimeter buffer 0 _) as [p|e|pos]; [done|done|].
    destruct (parseFloat _) as [measurement [e|]]; simpl.
    + apply IH in H as [-> ->]. by rewrite <- app_assoc.
    + by apply IH in H as [-> ->].
Qed.

(** X7: a task whose loop ends without panic has sent, in this order, the
    error of opening the file when there was one, one error for each record
    whose value did not parse, and one last result without error; the
    readings of that result count every record of the chunk, those whose
    value did not parse with the value that came with the error. *)
Theorem taskOn_results (parseFloat : string -> float32 * option error)
    (openErr : option error) (tokens : list (list ascii))
    (sent : list AggregationResult) :
  taskOn parseFloat openErr tokens = (sent, Returns tt) ->
  sent = (errorResult <$> option_list openErr)
         ++ (errorResult <$> omap (recordError parseFloat) tokens)
         ++ [readingsResult (observeAll ∅ (omap (recordValue parseFloat) tokens))].
Proof.
  unfold taskOn. intros H.
  destruct (scanLoop parseFloat tokens ∅ _) as [sent' [p|e|readings']] eqn:E;
    [done|done|].
  injection H as <-. apply scanLoop_results in E as [-> ->].
  rewrite <- app_assoc. by destruct openErr.
Qed.

Lemma taskOn_results_witness :
  taskOn parseDecimal None [bytes "A;1.0"; bytes "B;x"; bytes "A;2.5"]
  = ([errorResult (ErrSyntax "x");
      readingsResult (observeAll ∅ [("A"%string, f32_of_int 1);
                                    ("B"%string, f32_zero);
                                    ("A"%string, fst (parseDecimal "2.5"))])],
     Returns tt) /\
  [errorResult (ErrSyntax "x");
   readingsResult (observeAll ∅ [("A"%string, f32_of_int 1);
                                 ("B"%string, f32_zero);
                                 ("A"%string, fst (parseDecimal "2.5"))])]
  = (errorResult <$> option_list None)
    ++ (errorResult <$> omap (recordError parseDecimal)
          [bytes "A;1.0"; bytes "B;x"; bytes "A;2.5"])
    ++ [readingsResult (observeAll ∅ (omap (recordValue parseDecimal)
          [bytes "A;1.0"; bytes "B;x"; bytes "A;2.5"]))].
Proof.
  assert (taskOn parseDecimal None [bytes "A;1.0"; bytes "B;x"; bytes "A;2.5"]
          = ([errorResult (ErrSyntax "x");
              readingsResult (observeAll ∅ [("A"%string, f32_of_int 1);
                                            ("B"%string, f32_zero);
                                            ("A"%string, fst (parseDecimal "2.5"))])],
             Returns tt)) as H by (vm_compute; reflexivity).
  split; [exact H|].
  exact (taskOn_results parseDecimal None _ _ H).
Defined.

(** X8: on a file that cannot be opened the task does not stop after it
    has sent the error: it scans nothing and sends a second result,
    without error and with no readings. *)
Theorem task_unopened_file_sends_twice
    (parseFloat : string -> float32 * option error) (r : Range) :
  task parseFloat None r
  = ([errorResult ErrOpen; readingsResult ∅], Returns tt).
Proof.
  unfold task, taskOn, scanChunk.
  by destruct (sectionLimit (Begin r) (int64_wrap (End r - Begin r)) <=? Begin r).
Qed.

(** ** The entry of a station as folds over its values *)

Lemma observeAll_folds (observations : list (string * float32)) (station : string) :
  match observeAll ∅ observations !! station, valuesOf station observations with
  | Some m, v0 :: vs =>
      Min m = foldl f32_min v0 vs /\ Max m = foldl f32_max v0 vs /\
      Sum m = foldl f32_add v0 vs
  | None, [] => True
  | _, _ => False
  end.
Proof.
  induction observations as [|o obs IH] using rev_ind.
  - unfold observeAll. simpl. by rewrite lookup_empty.
  - rewrite observeAll_snoc, observe_lookup, valuesOf_snoc.
    destruct (decide (o.1 = station)) as [Ho|Ho].
    + rewrite Ho.
      destruct (observeAll ∅ obs !! station) as [m|],
               (valuesOf station obs) as [|v0 vs]; try done.
      destruct IH as (Hmin & Hmax & Hsum). simpl.
      rewrite !foldl_snoc. by rewrite Hmin, Hmax, Hsum.
    + by rewrite app_nil_r.
Qed.

Lemma observeAll_entry_folds (observations : list (string * float32))
    (station : string) (m : Measurements) :
  observeAll ∅ observations !! station = Some m ->
  exists v0 vs,
    valuesOf station observations = v0 :: vs /\
    Sum m = foldl f32_add v0 vs /\
    Min m = foldl f32_min v0 vs /\
    Max m = foldl f32_max v0 vs.
Proof.
  intros Hm. pose proof (observeAll_folds observations station) as H.
  rewrite Hm in H. destruct (valuesOf station observations) as [|v0 vs]; [done|].
  destruct H as (Hmin & Hmax & Hsum). by exists v0, vs.
Qed.

(** X9: the entry of a station holds the values observed for it folded from
    the left, in the order of the records: the sum is the [float32] sum
    [((v0 + v1) + v2) + ...], and so for the minimum and the maximum. *)
Theorem observeAll_folds_in_order (observations : list (string * float32))
    (station : string) (m : Measurements) :
  observeAll ∅ observations !! station = Some m ->
  exists v0 vs,
    valuesOf station observations = v0 :: vs /\
    Sum m = foldl f32_add v0 vs /\
    Min m = foldl f32_min v0 vs /\
    Max m = foldl f32_max v0 vs.
Proof. apply observeAll_entry_folds. Qed.

Lemma observeAll_folds_in_order_witness :
  exists v0 vs,
    valuesOf "A" [("A"%string, f32_of_int 16777216); ("B"%string, f32_of_int 5);
                  ("A"%string, f32_of_int 1); ("A"%string, f32_of_int 1)]
    = v0 :: vs /\
    f32_of_int 16777216 = foldl f32_add v0 vs /\
    f32_of_int 1 = foldl f32_min v0 vs /\
    f32_of_int 16777216 = foldl f32_max v0 vs.
Proof.
  exact (observeAll_folds_in_order
           [("A"%string, f32_of_int 16777216); ("B"%string, f32_of_int 5);
            ("A"%string, f32_of_int 1); ("A"%string, f32_of_int 1)]
           "A"%string
           {| Min := f32_of_int 1; Max := f32_of_int 16777216;
              Sum := f32_of_int 16777216; Count := 3 |}
           ltac:(vm_compute; reflexivity)).
Defined.

Lemma foldl_min_least vs : forall v0,
  v0 <> S754_nan -> Forall (fun v => v <> S754_nan) vs ->
  foldl f32_min v0 vs <> S754_nan /\
  foldl f32_min v0 vs ∈ v0 :: vs /\
  forall v, v ∈ v0 :: vs -> ~ f32_before v (foldl f32_min v0 vs).
Proof.
  induction vs as [|v1 vs IH]; intros v0 Hv0 Hall; simpl.
  - split; [done|]. split; [by left|].
    intros v Hv. apply list_elem_of_singleton in Hv as ->. apply f32_before_irrefl.
  - inversion Hall as [|? ? Hv1 Hall']; subst.
    destruct (IH (f32_min v0 v1) (f32_min_not_nan _ _ Hv0 Hv1) Hall')
      as (Hnan & Hin & Hleast).
    pose proof (Hleast (f32_min v0 v1) ltac:(by left)) as Hm.
    split; [done|]. split.
    + apply elem_of_cons in Hin as [Hin|Hin].
      * rewrite Hin.
        destruct (f32_min_spec v0 v1 Hv0 Hv1) as [[_ ->]|[_ ->]];
          [right; left|left].
      * right. by right.
    + intros v Hv.
      apply elem_of_cons in Hv as [->|Hv]; [|apply elem_of_cons in Hv as [->|Hv]].
      * destruct (f32_min_spec v0 v1 Hv0 Hv1) as [[H1 E]|[H1 E]];
          rewrite E in Hm |- *; [|done].
        intros Hb. rank_open. lia.
      * destruct (f32_min_spec v0 v1 Hv0 Hv1) as [[H1 E]|[H1 E]];
          rewrite E in Hm |- *; [done|].
        intros Hb. rank_open. lia.
      * apply Hleast. by right.
Qed.

Lemma foldl_max_greatest vs : forall v0,
  v0 <> S754_nan -> Forall (fun v => v <> S754_nan) vs ->
  foldl f32_max v0 vs <> S754_nan /\
  foldl f32_max v0 vs ∈ v0 :: vs /\
  forall v, v ∈ v0 :: vs -> ~ f32_before (foldl f32_max v0 vs) v.
Proof.
  induction vs as [|v1 vs IH]; intros v0 Hv0 Hall; simpl.
  - split; [done|]. split; [by left|].
    intros v Hv. apply list_elem_of_singleton in Hv as ->. apply f32_before_irrefl.
  - inversion Hall as [|? ? Hv1 Hall']; subst.
    destruct (IH (f32_max v0 v1) (f32_max_not_nan _ _ Hv0 Hv1) Hall')
      as (Hnan & Hin & Hmost).
    pose proof (Hmost (f32_max v0 v1) ltac:(by left)) as Hm.
    split; [done|]. split.
    + apply elem_of_cons in Hin as [Hin|Hin].
      * rewrite Hin.
        destruct (f32_max_spec v0 v1 Hv0 Hv1) as [[_ ->]|[_ ->]];
          [right; left|left].
      * right. by right.
    + intros v Hv.
      apply elem_of_cons in Hv as [->|Hv]; [|apply elem_of_cons in Hv as [->|Hv]].
      * destruct (f32_max_spec v0 v1 Hv0 Hv1) as [[H1 E]|[H1 E]];
          rewrite E in Hm |- *; [|done].
        intros Hb. rank_open. lia.
      * destruct (f32_max_spec v0 v1 Hv0 Hv1) as [[H1 E]|[H1 E]];
          rewrite E in Hm |- *; [done|].
        intros Hb. rank_open. lia.
      * apply Hmost. by right.
Qed.

Lemma observeAll_entry_extremes (observations : list (string * float32))
    (station : string) (m : Measurements) :
  observeAll ∅ observations !! station = Some m ->
  Forall (fun v => v <> S754_nan) (valuesOf station observations) ->
  Min m ∈ valuesOf station observations /\
  Max m ∈ valuesOf station observations /\
  forall v, v ∈ valuesOf station observations ->
    f32_le (Min m) v = true /\ f32_le v (Max m) = true.
Proof.
  intros Hm Hall.
  destruct (observeAll_entry_folds observations station m Hm)
    as (v0 & vs & Hvals & Hsum & Hmin & Hmax).
  rewrite Hvals in *. inversion Hall as [|? ? Hv0 Hall']; subst.
  destruct (foldl_min_least vs v0 Hv0 Hall') as (Hn1 & Hin1 & Hleast).
  destruct (foldl_max_greatest vs v0 Hv0 Hall') as (Hn2 & Hin2 & Hmost).
  rewrite Hmin, Hmax. split; [done|]. split; [done|].
  intros v Hv.
  assert (v <> S754_nan) as Hvn.
  { rewrite Forall_forall in Hall. by apply Hall. }
  split; apply f32_le_rank; auto.
Qed.

(** X10: when none of the values observed for a station is a NaN, the
    minimum and the maximum of its entry are two of these values, and
    [min <= v] and [v <= max] hold for every one of them. *)
Theorem observeAll_extremes (observations : list (string * float32))
    (station : string) (m : Measurements) :
  observeAll ∅ observations !! station = Some m ->
  Forall (fun v => v <> S754_nan) (valuesOf station observations) ->
  Min m ∈ valuesOf station observations /\
  Max m ∈ valuesOf station observations /\
  forall v, v ∈ valuesOf station observations ->
    f32_le (Min m) v = true /\ f32_le v (Max m) = true.
Proof. apply observeAll_entry_extremes. Qed.

Lemma observeAll_extremes_witness :
  f32_of_int 1 ∈ [f32_of_int 16777216; f32_of_int 1; f32_of_int 1] /\
  f32_of_int 16777216 ∈ [f32_of_int 16777216; f32_of_int 1; f32_of_int 1] /\
  forall v, v ∈ [f32_of_int 16777216; f32_of_int 1; f32_of_int 1] ->
    f32_le (f32_of_int 1) v = true /\ f32_le v (f32_of_int 16777216) = true.
Proof.
  exact (observeAll_extremes
           [("A"%string, f32_of_int 16777216); ("B"%string, f32_of_int 5);
            ("A"%string, f32_of_int 1); ("A"%string, f32_of_int 1)]
           "A"%string
           {| Min := f32_of_int 1; Max := f32_of_int 16777216;
              Sum := f32_of_int 16777216; Count := 3 |}
           ltac:(vm_compute; reflexivity)
           ltac:(repeat constructor; vm_compute; discriminate)).
Defined.

Lemma f32_add_nan x y :
  x = S754_nan \/ y = S754_nan -> f32_add x y = S754_nan.
Proof. intros [-> | ->]; [done|]. by destruct x as [[]|[]| |[] m e]. Qed.

Lemma foldl_nan (f : float32 -> float32 -> float32) vs :
  (forall x y, x = S754_nan \/ y = S754_nan -> f x y = S754_nan) ->
  forall v0, S754_nan ∈ v0 :: vs -> foldl f v0 vs = S754_nan.
Proof.
  intros Hf. induction vs as [|v1 vs IH]; intros v0 Hin; simpl.
  - by apply list_elem_of_singleton in Hin.
  - apply IH. apply elem_of_cons in Hin as [Hin|Hin].
    + rewrite Hf; [left|left]; done.
    + apply elem_of_cons in Hin as [Hin|Hin].
      * rewrite Hf; [left|right]; done.
      * by right.
Qed.

(** X11: one NaN among the values observed for a station makes the minimum,
    the maximum and the sum of its entry NaN, whatever the other values
    are and wherever the NaN stands among them. *)
Theorem observeAll_nan_poisons (observations : list (string * float32))
    (station : string) (m : Measurements) :
  observeAll ∅ observations !! station = Some m ->
  S754_nan ∈ valuesOf station observations ->
  Min m = S754_nan /\ Max m = S754_nan /\ Sum m = S754_nan.
Proof.
  intros Hm Hin.
  destruct (observeAll_entry_folds observations station m Hm)
    as (v0 & vs & Hvals & Hsum & Hmin & Hmax).
  rewrite Hvals in Hin. rewrite Hsum, Hmin, Hmax.
  split; [|split].
  - apply foldl_nan; [apply f32_min_nan | done].
  - apply foldl_nan; [apply f32_max_nan | done].
  - apply foldl_nan; [apply f32_add_nan | done].
Qed.

Lemma observeAll_nan_poisons_witness :
  Min (once S754_nan) = S754_nan /\ Max (once S754_nan) = S754_nan /\
  Sum (once S754_nan) = S754_nan.
Proof.
  exact (observeAll_nan_poisons
           [("A"%string, f32_of_int 3); ("B"%string, f32_of_int 5);
            ("A"%string, S754_nan); ("A"%string, f32_of_int 1)]
           "A"%string
           {| Min := S754_nan; Max := S754_nan; Sum := S754_nan; Count := 3 |}
           ltac:(vm_compute; reflexivity)
           ltac:(vm_compute; right; left)).
Defined.

(* ================================================================== *)
(** * Further properties of the merger of [run] *)

Lemma mergeStation_commute station1 m1 station2 m2 readings :
  station1 <> station2 ->
  mergeStation station1 m1 (mergeStation station2 m2 readings)
  = mergeStation station2 m2 (mergeStation station1 m1 readings).
Proof.
  intros Hne. unfold mergeStation.
  destruct (readings !! station1) as [v1|] eqn:E1,
           (readings !! station2) as [v2|] eqn:E2;
    rewrite !lookup_insert_ne by done; rewrite ?E1, ?E2;
    by apply insert_insert_ne.
Qed.

Lemma foldl_reverse {A B : Type} (f : A -> B -> A) (l : list B) : forall a,
  foldl f a l = foldr (fun x acc => f acc x) a (reverse l).
Proof.
  induction l as [|x l IH]; intros a; [done|].
  rewrite reverse_cons, foldr_app. simpl. apply IH.
Qed.

(** X12: the merge of the map of one worker into the accumulator does not
    depend on the order in which [range] visits that map: visiting its
    entries, each once, in any order gives the same accumulator. *)
Theorem mergeReadings_any_order (readings subreadings : gmap string Measurements)
    (visited : list (string * Measurements)) :
  visited ≡ₚ map_to_list subreadings ->
  foldl (fun acc e => mergeStation e.1 e.2 acc) readings visited
  = mergeReadings readings subreadings.
Proof.
  intros Hperm. unfold mergeReadings.
  rewrite map_fold_foldr, foldl_reverse.
  assert (forall l,
            foldr (fun e acc => mergeStation e.1 e.2 acc) readings l
            = foldr (uncurry mergeStation) readings l) as ->.
  { induction l as [|[k a] l IH]; simpl; by rewrite ?IH. }
  apply (foldr_permutation eq (uncurry mergeStation)).
  - by intros x ? ? ->.
  - intros j1 [k1 a1] j2 [k2 a2] b Hj H1 H2. simpl.
    apply mergeStation_commute. intros ->.
    assert (NoDup (reverse visited).*1) as Hnd.
    { rewrite reverse_Permutation, Hperm. apply NoDup_fst_map_to_list. }
    apply Hj. eapply NoDup_lookup; [exact Hnd| |].
    + by rewrite list_lookup_fmap, H1.
    + by rewrite list_lookup_fmap, H2.
  - by rewrite reverse_Permutation.
Qed.

Lemma mergeReadings_any_order_witness :
  foldl (fun acc e => mergeStation e.1 e.2 acc)
    {[ "A"%string := once (f32_of_int 1) ]}
    [("B"%string, once (f32_of_int 2)); ("A"%string, once (f32_of_int 3))]
  = mergeReadings {[ "A"%string := once (f32_of_int 1) ]}
      {[ "A"%string := once (f32_of_int 3); "B"%string := once (f32_of_int 2) ]}.
Proof.
  apply mergeReadings_any_order. vm_compute. apply perm_swap.
Defined.

Lemma foldl_mergeReadings_lookup (l : list (gmap string Measurements))
    (station : string) :
  foldl mergeReadings ∅ l !! station
  = match omap (fun sub => sub !! station) l with
    | [] => None
    | m :: ms => Some (foldl combine m ms)
    end.
Proof.
  induction l as [|sub l IH] using rev_ind; [done|].
  rewrite foldl_app, omap_app. simpl.
  rewrite mergeReadings_lookup, IH.
  destruct (omap (fun sub => sub !! station) l) as [|m ms];
    destruct (sub !! station) as [m'|]; simpl; try done.
  - by rewrite foldl_app.
  - by rewrite app_nil_r.
Qed.

(** X13: when every result that arrives is a success, the loop of the
    merger receives them all and returns; the entry of a station in the
    final map is the entries that the workers hold for it, combined from
    the left in the order of arrival, and a station that no worker holds
    has no entry. *)
Theorem reduceLoop_combines_in_arrival_order (channel : list AggregationResult) :
  Forall succeeded channel ->
  exists readings,
    reduceLoop (length channel) channel ∅ = Some (Returns readings, []) /\
    forall station,
      readings !! station
      = match omap (fun r => Readings r !! station) channel with
        | [] => None
        | m :: ms => Some (foldl combine m ms)
        end.
Proof.
  intros Hok. eexists. split; [by apply reduceLoop_succeeded|].
  intros station. rewrite foldl_mergeReadings_lookup. clear Hok.
  assert (omap (fun sub : gmap string Measurements => sub !! station)
            (Readings <$> channel)
          = omap (fun r => Readings r !! station) channel) as ->; [|done].
  induction channel as [|r channel IH]; [done|].
  rewrite fmap_cons.
  change (omap ?f (?x :: ?l)) with
    (match f x with Some y => y :: omap f l | None => omap f l end).
  by rewrite IH.
Qed.

Lemma reduceLoop_combines_in_arrival_order_witness :
  exists readings,
    reduceLoop 3 [sawOne; sawLarge; sawOne] ∅ = Some (Returns readings, []) /\
    forall station,
      readings !! station
      = match omap (fun r => Readings r !! station) [sawOne; sawLarge; sawOne] with
        | [] => None
        | m :: ms => Some (foldl combine m ms)
        end.
Proof.
  apply (reduceLoop_combines_in_arrival_order [sawOne; sawLarge; sawOne]).
  repeat constructor.
Defined.

(* ================================================================== *)
(** * Further properties of [run] *)

(** ** An error that a task sends reaches the caller *)

Lemma taskOn_sent parseFloat openErr tokens sent :
  taskOn parseFloat openErr tokens = (sent, Returns tt) ->
  exists errors readings,
    sent = errors ++ [readingsResult readings] /\
    Forall (fun r => Error r <> None) errors.
Proof.
  unfold taskOn. intros H.
  destruct (scanLoop parseFloat tokens ∅
              match openErr with Some e => [errorResult e] | None => [] end)
    as [sent' [p|e|readings]] eqn:E; try done.
  injection H as <-.
  apply scanLoop_sent in E as (errors & -> & Herr).
  exists (match openErr with Some e => [errorResult e] | None => [] end ++ errors),
    readings.
  split; [done|]. apply Forall_app. split; [|done].
  destruct openErr; repeat constructor. done.
Qed.

Lemma reduceLoop_meets_error (sources : list (list AggregationResult))
    (channel : list AggregationResult) :
  interleaving sources channel ->
  forall cnt readings,
  Forall (fun l => l = [] \/
            exists errors s, l = errors ++ [s] /\
              Forall (fun r => Error r <> None) errors /\ succeeded s) sources ->
  Exists (fun l => exists e l', l = e :: l' /\ Error e <> None) sources ->
  (length (filter (fun l => length l <> 0%nat) sources) <= cnt)%nat ->
  exists e rest,
    reduceLoop cnt channel readings = Some (Fails e, rest) /\
    Some e ∈ Error <$> channel.
Proof.
  induction 1 as [sources Hnil|before x l after out Hi IH];
    intros cnt readings Hshape Hex Hcnt.
  - exfalso. apply Exists_exists in Hex as (l & Hl & e & l' & -> & _).
    rewrite Forall_forall in Hnil. by specialize (Hnil _ Hl).
  - rewrite filter_app, length_app, filter_cons_True in Hcnt by done.
    simpl in Hcnt.
    destruct cnt as [|cnt]; [lia|].
    rewrite fmap_cons. cbn [reduceLoop]. destruct (Error x) as [e|] eqn:Ex.
    + exists e, out. split; [done|]. by left.
    + assert (l = []) as ->.
      { apply Forall_app in Hshape as [_ Hshape].
        apply Forall_cons in Hshape as [[Hx|(errors & s & Hx & Herr & Hs)] _];
          [done|].
        destruct errors as [|e errors].
        - by injection Hx as _ ->.
        - injection Hx as -> _. by apply Forall_cons in Herr as [Herr _]. }
      destruct (IH cnt (mergeReadings readings (Readings x)))
        as (e & rest & Hred & Hin).
      * apply Forall_app in Hshape as [Hb Ha]. apply Forall_cons in Ha as [_ Ha].
        apply Forall_app. split; [done|]. constructor; [by left|done].
      * apply Exists_app in Hex as [Hex|Hex]; apply Exists_app; [by left|].
        right. apply Exists_cons in Hex as [(e & l' & Hx & He)|Hex].
        -- injection Hx as <- _. done.
        -- by apply Exists_cons_tl.
      * rewrite filter_app, length_app, filter_cons_False by (simpl; lia). lia.
      * exists e, rest. split; [done|]. by right.
Qed.

Lemma spawned_sent parseFloat fs ranges parallel :
  Forall (fun t => t.2 = Returns tt) (spawned parseFloat fs ranges parallel) ->
  Forall (fun l => l = [] \/
            exists errors s, l = errors ++ [s] /\
              Forall (fun r => Error r <> None) errors /\ succeeded s)
    (map fst (spawned parseFloat fs ranges parallel)).
Proof.
  unfold spawned. induction (take (Z.to_nat parallel) ranges) as [|r l IH];
    simpl; intros H; [done|].
  apply Forall_cons in H as [Hr H]. constructor; [|by apply IH].
  right. unfold task in *.
  destruct (taskOn parseFloat _ _) as [sent res] eqn:E. simpl in *. subst res.
  apply taskOn_sent in E as (errors & readings & -> & Herr).
  by exists errors, (readingsResult readings).
Qed.

(** X14: when [determineRanges] returns, no task panics and some task sends
    an error, [run] returns an error that a task has sent, in whatever
    order the results arrive: the loop of the merger meets an error
    before it has received one result per task, since a task sends its
    errors before its readings. *)
Theorem run_returns_error_of_task
    (parseFloat : string -> float32 * option error)
    (formatFloat : float32 -> string) (fuel : nat) (fs : option (list ascii))
    (parallel : Z) (ranges : list Range) (channel : list AggregationResult) :
  determineRanges fuel fs parallel MeasurementDelimeter = Some (Returns ranges) ->
  Forall (fun t => t.2 = Returns tt) (spawned parseFloat fs ranges parallel) ->
  Exists (fun t => Exists (fun r => Error r <> None) t.1)
    (spawned parseFloat fs ranges parallel) ->
  arrives parseFloat fs ranges parallel channel ->
  exists e,
    run formatFloat fuel fs parallel channel = Some (Fails e) /\
    Some e ∈ Error <$> channel.
Proof.
  intros Hdet Hret Hex Harr. unfold arrives in Harr.
  pose proof (spawned_sent _ _ _ _ Hret) as Hshape.
  destruct (reduceLoop_meets_error _ _ Harr (Z.to_nat parallel) ∅)
    as (e & rest & Hred & Hin).
  - done.
  - change (map fst ?l) with (fst <$> l). apply Exists_fmap.
    apply Exists_exists in Hex as ([sent res] & Ht & Hsent).
    apply Exists_exists. exists (sent, res). split; [done|]. simpl in *.
    change (map fst ?l) with (fst <$> l) in Hshape.
    rewrite Forall_fmap, Forall_forall in Hshape.
    destruct (Hshape _ Ht) as [Hnil|(errors & s & Hs & Herr & Hok)]; simpl in *.
    + subst sent. by apply Exists_nil in Hsent.
    + subst sent. destruct errors as [|e errors].
      * apply Exists_cons in Hsent as [Hsent|Hsent]; [done|].
        by apply Exists_nil in Hsent.
      * exists e, (errors ++ [s]). split; [done|].
        by apply Forall_cons in Herr as [Herr _].
  - etransitivity; [apply length_filter|].
    unfold spawned. rewrite !length_map, length_take. lia.
  - exists e. split; [|done]. unfold run, aggregate. rewrite Hdet.
    destruct (Z.ltb_spec parallel 0) as [Hneg|_]; [|by rewrite Hred].
    exfalso. unfold spawned in Hex.
    replace (Z.to_nat parallel) with 0%nat in Hex by lia.
    rewrite take_0 in Hex. by apply Exists_nil in Hex.
Qed.

Lemma run_returns_error_of_task_witness :
  exists e,
    run formatTenths 8 (Some (bytes ("A;x" ++ nl ++ "B;2" ++ nl))) 2
      (inOrder parseDecimal (Some (bytes ("A;x" ++ nl ++ "B;2" ++ nl)))
         [{| Begin := 0; End := 4 |}; {| Begin := 4; End := 8 |}] 2)
    = Some (Fails e) /\
    Some e ∈ Error <$>
      inOrder parseDecimal (Some (bytes ("A;x" ++ nl ++ "B;2" ++ nl)))
        [{| Begin := 0; End := 4 |}; {| Begin := 4; End := 8 |}] 2.
Proof.
  apply (run_returns_error_of_task parseDecimal formatTenths 8
           (Some (bytes ("A;x" ++ nl ++ "B;2" ++ nl))) 2
           [{| Begin := 0; End := 4 |}; {| Begin := 4; End := 8 |}]).
  - vm_compute. reflexivity.
  - repeat constructor.
  - apply Exists_cons_hd. apply Exists_cons_hd. vm_compute. discriminate.
  - apply interleaving_concat.
Defined.

(* ================================================================== *)
(** * Further properties of [writeOutput] *)

Lemma string_app_assoc (a b c : string) : ((a ++ b) ++ c = a ++ (b ++ c))%string.
Proof.
  induction a as [|x a IH]; [done|].
  change (String x ((a ++ b) ++ c) = String x (a ++ (b ++ c)))%string.
  by f_equal.
Qed.

Lemma string_app_empty_r (a : string) : (a ++ "" = a)%string.
Proof.
  induction a as [|x a IH]; [done|].
  change (String x (a ++ "") = String x a)%string. by f_equal.
Qed.

Lemma writeEntries_joined formatFloat readings stations :
  forall numStations i buffer,
  Forall (fun station => is_Some (readings !! station)) stations ->
  i + Z.of_nat (length stations) = numStations ->
  writeEntries formatFloat numStations i stations readings buffer
  = Returns (buffer
             ++ String.concat ", " (formatEntry formatFloat readings <$> stations))%string.
Proof.
  induction stations as [|station stations IH]; intros numStations i buffer Hall Hi.
  - simpl. by rewrite string_app_empty_r.
  - apply Forall_cons in Hall as [[v Hv] Hall].
    cbn [writeEntries]. rewrite Hv.
    rewrite bool_decide_true by (by eexists). cbn [negb].
    rewrite IH; [|done|simpl length in Hi; lia].
    rewrite fmap_cons. unfold formatEntry at 2. rewrite Hv.
    simpl length in Hi.
    destruct stations as [|station' stations].
    + simpl in Hi. destruct (Z.ltb_spec i (numStations - 1)); [lia|].
      simpl. by rewrite string_app_empty_r.
    + simpl length in Hi. destruct (Z.ltb_spec i (numStations - 1)); [|lia].
      rewrite fmap_cons.
      change (String.concat ", " (?x :: ?y :: ?l))
        with (x ++ ", " ++ String.concat ", " (y :: l))%string.
      by rewrite !string_app_assoc.
Qed.

Lemma writeEntries_not_fails formatFloat readings stations :
  forall numStations i buffer e,
  writeEntries formatFloat numStations i stations readings buffer <> Fails e.
Proof.
  induction stations as [|station stations IH]; intros numStations i buffer e;
    [done|].
  cbn [writeEntries]. destruct (readings !! station) as [v|] eqn:Hv; [|done].
  rewrite bool_decide_true by (by eexists). cbn [negb]. apply IH.
Qed.

(** X15: when the map holds an entry for each of the stations, [writeOutput]
    returns their entries in the order of the list, joined with a comma and
    a space and put in braces: no separator after the last entry, and
    [{}] for no station at all. *)
Theorem writeOutput_joins_entries (formatFloat : float32 -> string)
    (stations : list string) (readings : gmap string Measurements) :
  Forall (fun station => is_Some (readings !! station)) stations ->
  writeOutput formatFloat stations readings
  = Returns ("{" ++ String.concat ", " (formatEntry formatFloat readings <$> stations)
                 ++ "}")%string.
Proof.
  intros Hall. unfold writeOutput.
  rewrite (writeEntries_joined formatFloat readings stations _ 0 "{" Hall) by lia.
  by rewrite string_app_assoc.
Qed.

Lemma writeOutput_joins_entries_witness :
  writeOutput formatTenths ["A"; "B"]%string
    {[ "A"%string := once (f32_of_int 3); "B"%string := once (f32_of_int 2) ]}
  = Returns "{A=3.0/3.0/3.0, B=2.0/2.0/2.0}"%string.
Proof.
  rewrite (writeOutput_joins_entries formatTenths ["A"; "B"]%string
             {[ "A"%string := once (f32_of_int 3); "B"%string := once (f32_of_int 2) ]}).
  - vm_compute. reflexivity.
  - repeat constructor; by eexists.
Defined.

(** X16: [writeOutput] never returns its error: a station without entry
    makes it panic before the test of [ok], and with an entry for every
    station it returns the text.  The branch that builds the error is
    dead code. *)
Theorem writeOutput_never_fails (formatFloat : float32 -> string)
    (stations : list string) (readings : gmap string Measurements) (e : error) :
  writeOutput formatFloat stations readings <> Fails e.
Proof.
  unfold writeOutput.
  pose proof (writeEntries_not_fails formatFloat readings stations
                (Z.of_nat (length stations)) 0 "{") as H.
  destruct (writeEntries _ _ _ _ _ _) as [p|e'|buffer]; [done| |done].
  intros [= ->]. by apply (H e).
Qed.

(* ================================================================== *)
(** * Further properties of the end of [run] *)

(** ** The sorted stations *)

Lemma string_compare_trans (s1 : string) : forall s2 s3,
  String.compare s1 s2 <> Gt -> String.compare s2 s3 <> Gt ->
  String.compare s1 s3 <> Gt.
Proof.
  induction s1 as [|c1 s1 IH]; intros [|c2 s2] [|c3 s3]; cbn [String.compare];
    try done.
  unfold Ascii.compare.
  destruct (N.compare_spec (N_of_ascii c1) (N_of_ascii c2)) as [E12|L12|G12];
    destruct (N.compare_spec (N_of_ascii c2) (N_of_ascii c3)) as [E23|L23|G23];
    destruct (N.compare_spec (N_of_ascii c1) (N_of_ascii c3)) as [E13|L13|G13];
    try done; try lia.
  apply IH.
Qed.

Lemma string_le_total : Total string_le.
Proof. intros a b. apply String.leb_total. Qed.

Lemma string_le_trans : Transitive string_le.
Proof.
  intros a b c. unfold string_le, String.leb. intros Hab Hbc.
  pose proof (string_compare_trans a b c) as H.
  destruct (String.compare a b); try done;
    destruct (String.compare b c); try done;
    destruct (String.compare a c); try done; by exfalso; apply H.
Qed.

Lemma StronglySorted_lookup {A : Type} (R : relation A) (l : list A) :
  StronglySorted R l ->
  forall i j a b, l !! i = Some a -> l !! j = Some b -> (i < j)%nat -> R a b.
Proof.
  induction 1 as [|x l Hs IH Hall]; intros i j a b Hi Hj Hij; [done|].
  destruct j as [|j]; [lia|]. simpl in Hj. destruct i as [|i].
  - injection Hi as <-. rewrite Forall_forall in Hall. apply Hall.
    by eapply list_elem_of_lookup_2.
  - simpl in Hi. eapply IH; eauto. lia.
Qed.

(** X17: the stations that [run] hands to the formatter are the keys of the
    merged map, each of them once, in ascending order of their bytes:
    each station comes before all the later ones, and is different from
    them. *)
Theorem sortedStations_ascending_keys (readings : gmap string Measurements) :
  (forall station,
     station ∈ sortedStations readings <-> is_Some (readings !! station)) /\
  NoDup (sortedStations readings) /\
  forall i j a b,
    sortedStations readings !! i = Some a ->
    sortedStations readings !! j = Some b ->
    (i < j)%nat -> String.leb a b = true /\ a <> b.
Proof.
  assert (sortedStations readings ≡ₚ (map_to_list readings).*1) as Hperm.
  { unfold sortedStations. apply merge_sort_Permutation. }
  assert (NoDup (sortedStations readings)) as Hnd.
  { rewrite Hperm. apply NoDup_fst_map_to_list. }
  split; [|split; [done|]].
  - intros station. rewrite Hperm, list_elem_of_fmap. split.
    + intros ([k v] & -> & Hin). apply elem_of_map_to_list in Hin. by exists v.
    + intros [v Hv]. exists (station, v). split; [done|].
      by apply elem_of_map_to_list.
  - intros i j a b Hi Hj Hij.
    pose proof (StronglySorted_merge_sort string_le
                  (Transitive0 := string_le_trans) (Total0 := string_le_total)
                  (map fst (map_to_list readings))) as Hs.
    fold (sortedStations readings) in Hs.
    split.
    + eapply (StronglySorted_lookup string_le); eauto.
    + intros ->. assert (i = j); [|lia].
      eapply NoDup_lookup; eauto.
Qed.

(** ** From the merged map to the text *)

Lemma writeOutput_sortedStations formatFloat (readings : gmap string Measurements) :
  writeOutput formatFloat (sortedStations readings) readings
  = Returns ("{" ++ String.concat ", "
                      (formatEntry formatFloat readings <$> sortedStations readings)
                 ++ "}")%string.
Proof.
  unfold writeOutput.
  rewrite (writeEntries_joined formatFloat readings (sortedStations readings)
             _ 0 "{"); [by rewrite string_app_assoc| |lia].
  apply Forall_forall. intros station Hin.
  assert (sortedStations readings ≡ₚ (map_to_list readings).*1) as Hperm.
  { unfold sortedStations. apply merge_sort_Permutation. }
  rewrite Hperm in Hin. apply list_elem_of_fmap in Hin as ([k v] & -> & Hin).
  apply elem_of_map_to_list in Hin. by exists v.
Qed.

(** X18: for a worker count that is not negative, once [determineRanges]
    has returned and the loop of the merger has returned a map, [run]
    returns a text and no error: every station that it collects from the
    map has its entry there, so that [writeOutput] meets no nil pointer,
    and the text lists the stations of the map in ascending order; the
    results that are left on the channel play no part.  (With a negative
    count [run] panics when it makes the channel.) *)
Theorem run_prints_merged_map (formatFloat : float32 -> string) (fuel : nat)
    (fs : option (list ascii)) (parallel : Z) (ranges : list Range)
    (channel rest : list AggregationResult) (readings : gmap string Measurements) :
  0 <= parallel ->
  determineRanges fuel fs parallel MeasurementDelimeter = Some (Returns ranges) ->
  reduceLoop (Z.to_nat parallel) channel ∅ = Some (Returns readings, rest) ->
  run formatFloat fuel fs parallel channel
  = Some (Returns ("{" ++ String.concat ", "
                            (formatEntry formatFloat readings <$> sortedStations readings)
                       ++ "}")%string).
Proof.
  intros Hpar Hdet Hred. unfold run, aggregate. rewrite Hdet.
  destruct (Z.ltb_spec parallel 0); [lia|]. rewrite Hred.
  by rewrite writeOutput_sortedStations.
Qed.

Lemma run_prints_merged_map_witness :
  run formatTenths 1 (Some specExample) 1
    (inOrder parseDecimal (Some specExample) (wholeFile specExample) 1)
  = Some (Returns "{A=10.0/15.0/20.0, B=-5.5/-5.5/-5.5}"%string).
Proof.
  rewrite (run_prints_merged_map formatTenths 1 (Some specExample) 1
             (wholeFile specExample)
             (inOrder parseDecimal (Some specExample) (wholeFile specExample) 1) []
             (observeAll ∅ [("A"%string, (parseDecimal "10.0").1);
                            ("B"%string, (parseDecimal "-5.5").1);
                            ("A"%string, (parseDecimal "20.0").1)])).
  - vm_compute. reflexivity.
  - lia.
  - reflexivity.
  - vm_compute. reflexivity.
Defined.

(** ** A well-formed file, from the bytes to the text *)

Lemma scanLines_length input : forall cur n,
  (length (scanLines cur n input).1 <= length input + 1)%nat.
Proof.
  induction input as [|c input IH]; intros cur n; simpl.
  - destruct cur; simpl; lia.
  - destruct (byte_eqb c MeasurementDelimeter).
    + specialize (IH [] 0). destruct (scanLines [] 0 input) as [tokens err].
      simpl in *. lia.
    + destruct (MaxScanTokenSize <=? n + 1); [simpl; lia|].
      specialize (IH (c :: cur) (n + 1)). lia.
Qed.

Lemma omap_length {A B : Type} (f : A -> option B) (l : list A) :
  (length (omap f l) <= length l)%nat.
Proof.
  induction l as [|x l IH]; [done|].
  change (omap f (x :: l))
    with (match f x with Some y => y :: omap f l | None => omap f l end).
  destruct (f x); simpl; lia.
Qed.

Lemma statistics_of_observations (readings : gmap string Measurements)
    (observations : list (string * float32)) (station : string) :
  statistics <$> readings = observedStatistics observations ->
  Z.of_nat (length observations) <= int64_max ->
  match readings !! station with
  | None => valuesOf station observations = []
  | Some m =>
      Count m = Z.of_nat (length (valuesOf station observations)) /\
      (Forall (fun v => v <> S754_nan) (valuesOf station observations) ->
       Min m ∈ valuesOf station observations /\
       Max m ∈ valuesOf station observations /\
       forall v, v ∈ valuesOf station observations ->
         f32_le (Min m) v = true /\ f32_le v (Max m) = true)
  end.
Proof.
  intros Hstat Hlen.
  assert (statistics <$> (readings !! station)
          = statistics <$> (observeAll ∅ observations !! station)) as Hs.
  { rewrite <- !lookup_fmap, Hstat, statistics_observeAll.
    by rewrite fmap_empty, mergeStatistics_empty_l. }
  pose proof (observeAll_invariant observations station Hlen) as Hinv.
  destruct (readings !! station) as [m|],
           (observeAll ∅ observations !! station) as [m'|] eqn:E; try done.
  injection Hs as Hmin Hmax Hcount. destruct Hinv as (Hc & _ & _).
  split; [congruence|]. intros Hall.
  rewrite Hmin, Hmax. by apply observeAll_entry_extremes.
Qed.

(** X19: for a well-formed file, a worker count for which [determineRanges]
    returns, and any order of arrival, [run] returns a text, made of the
    entries of the merged map in ascending order of the stations.  The
    map has an entry exactly for the stations of the file; its count is
    the number of records of the station, and when none of the values of
    the station is a NaN, its minimum and its maximum are two of these
    values, below and above all of them. *)
Theorem run_wellFormed_file (parseFloat : string -> float32 * option error)
    (formatFloat : float32 -> string) (file : list ascii) (k : Z) (fuel : nat)
    (ranges : list Range) (channel : list AggregationResult) :
  wellFormed parseFloat file -> Z.of_nat (length file) < 2 ^ 62 -> 1 <= k ->
  determineRanges fuel (Some file) k MeasurementDelimeter = Some (Returns ranges) ->
  arrives parseFloat (Some file) ranges k channel ->
  exists readings,
    run formatFloat fuel (Some file) k channel
    = Some (Returns ("{" ++ String.concat ", "
                              (formatEntry formatFloat readings
                                 <$> sortedStations readings)
                         ++ "}")%string) /\
    forall station,
      let values := valuesOf station (observationsOf parseFloat (linesOf file)) in
      match readings !! station with
      | None => values = []
      | Some m =>
          Count m = Z.of_nat (length values) /\
          (Forall (fun v => v <> S754_nan) values ->
           Min m ∈ values /\ Max m ∈ values /\
           forall v, v ∈ values ->
             f32_le (Min m) v = true /\ f32_le v (Max m) = true)
      end.
Proof.
  intros Hwf Hlen Hk Hdet Harr.
  destruct (aggregate_wellFormed parseFloat file k fuel ranges channel)
    as (readings & Hagg & Hstat); [done..|].
  exists readings. split.
  - unfold run. rewrite Hagg. by rewrite writeOutput_sortedStations.
  - intros station. apply statistics_of_observations; [done|].
    pose proof (omap_length (parseRecord parseFloat) (linesOf file)) as H1.
    pose proof (scanLines_length file [] 0) as H2.
    unfold observationsOf, linesOf in *. unfold int64_max. lia.
Qed.

Lemma run_wellFormed_file_witness :
  exists readings,
    run formatTenths 16 (Some largeAndSmall) 2
      (inOrder parseDecimal (Some largeAndSmall) twoHalves 2)
    = Some (Returns ("{" ++ String.concat ", "
                              (formatEntry formatTenths readings
                                 <$> sortedStations readings)
                         ++ "}")%string) /\
    forall station,
      let values :=
        valuesOf station (observationsOf parseDecimal (linesOf largeAndSmall)) in
      match readings !! station with
      | None => values = []
      | Some m =>
          Count m = Z.of_nat (length values) /\
          (Forall (fun v => v <> S754_nan) values ->
           Min m ∈ values /\ Max m ∈ values /\
           forall v, v ∈ values ->
             f32_le (Min m) v = true /\ f32_le v (Max m) = true)
      end.
Proof.
  apply (run_wellFormed_file parseDecimal formatTenths largeAndSmall 2 16 twoHalves).
  - split; [vm_compute; reflexivity|].
    replace (linesOf largeAndSmall)
      with [bytes "A;16777216"; bytes "A;1.0"; bytes "A;1.0"]
      by (vm_compute; reflexivity).
    repeat constructor; (eexists; vm_compute; reflexivity).
  - vm_compute. reflexivity.
  - lia.
  - vm_compute. reflexivity.
  - apply interleaving_concat.
Defined.

(* ================================================================== *)
(** * The bytes that the tasks read *)

Lemma chunks_concat (file : list ascii) : forall ranges start,
  0 <= start <= 2 * Z.of_nat (length file) -> Z.of_nat (length file) < 2 ^ 62 ->
  chained start ranges ->
  Forall (fun r => Begin r <= End r) ranges ->
  Forall (fun r => End r <= 2 * Z.of_nat (length file)) ranges ->
  Forall (fun r => (sectionBytes file r).2 = None)
    (ranges ++ [lastRange file start ranges]) /\
  concat ((fun r => (sectionBytes file r).1) <$> (ranges ++ [lastRange file start ranges]))
  = drop (Z.to_nat start) file.
Proof.
  induction ranges as [|r ranges IH]; intros start Hstart Hlen Hch Hord Hend.
  - unfold lastRange. simpl. split.
    + constructor; [|done].
      by rewrite sectionBytes_last by (unfold int64_max; lia).
    + rewrite sectionBytes_last by (unfold int64_max; lia). simpl.
      by rewrite app_nil_r.
  - destruct Hch as [Hb Hch].
    apply Forall_cons in Hord as [Hr Hord]. apply Forall_cons in Hend as [He Hend].
    destruct (IH (End r)) as [IH1 IH2]; [lia|done..|].
    rewrite lastRange_cons, <- app_comm_cons, fmap_cons.
    rewrite sectionBytes_range by (unfold int64_max; lia).
    split.
    + constructor; [|done]. by rewrite sectionBytes_range by (unfold int64_max; lia).
    + cbn [concat fst]. rewrite IH2, Hb.
      replace (Z.to_nat (End r)) with (Z.to_nat start + Z.to_nat (End r - start))%nat
        by lia.
      rewrite <- drop_drop. apply take_drop.
Qed.

(** X20: when [determineRanges] returns for the record delimiter, the
    section readers of the tasks read without error, and the bytes that
    they read, one range after the other, are the bytes of the file: each
    byte is read by one task and by no other, also when a range ends
    after the end of the file or the last range runs backwards. *)
Theorem sectionBytes_of_ranges_are_the_file (fuel : nat) (file : list ascii)
    (n : Z) (ranges : list Range) :
  1 <= n -> Z.of_nat (length file) < 2 ^ 62 ->
  determineRanges fuel (Some file) n MeasurementDelimeter = Some (Returns ranges) ->
  Forall (fun r => (sectionBytes file r).2 = None) ranges /\
  concat ((fun r => (sectionBytes file r).1) <$> ranges) = file.
Proof.
  intros Hn Hlen Hret. destruct (decide (n = 1)) as [->|Hne].
  - unfold determineRanges in Hret. simpl in Hret. injection Hret as <-.
    destruct (chunks_concat file [] 0) as [H1 H2]; [lia|done|done|done|done|].
    by split.
  - destruct (determineRanges_shape fuel file MeasurementDelimeter n ranges)
      as (ranges' & rlast & -> & Hl & Hlast & Hch & Hadj & Hend);
      [lia|done|done|done|].
    destruct (chunks_concat file ranges' 0) as [H1 H2]; [lia|done|done| |done|].
    { eapply Forall_impl; [exact Hadj|]. by intros r (H & _). }
    unfold lastRange in *. rewrite Hlast in *. by split.
Qed.

Lemma sectionBytes_of_ranges_are_the_file_witness :
  Forall (fun r => (sectionBytes sixRecords r).2 = None)
    [ {| Begin := 0; End := 4 |}; {| Begin := 4; End := 8 |};
      {| Begin := 8; End := 12 |}; {| Begin := 12; End := 16 |};
      {| Begin := 16; End := 20 |}; {| Begin := 20; End := 24 |};
      {| Begin := 24; End := 28 |}; {| Begin := 28; End := 24 |} ] /\
  concat ((fun r => (sectionBytes sixRecords r).1) <$>
    [ {| Begin := 0; End := 4 |}; {| Begin := 4; End := 8 |};
      {| Begin := 8; End := 12 |}; {| Begin := 12; End := 16 |};
      {| Begin := 16; End := 20 |}; {| Begin := 20; End := 24 |};
      {| Begin := 24; End := 28 |}; {| Begin := 28; End := 24 |} ])
  = sixRecords.
Proof.
  apply (sectionBytes_of_ranges_are_the_file 8 sixRecords 8).
  - lia.
  - vm_compute. reflexivity.
  - vm_compute. reflexivity.
Defined.

(* ================================================================== *)
(** * The record of a line *)

Lemma scanDelimeter_first (station value : list ascii) : forall pos len,
  StationDelimeter ∉ station ->
  int64_min <= pos -> pos + Z.of_nat (length station) <= int64_max ->
  scanDelimeter (station ++ StationDelimeter :: value) pos len
  = Returns (pos + Z.of_nat (length station)).
Proof.
  induction station as [|c station IH]; intros pos len Hno Hlo Hhi.
  - simpl. f_equal. lia.
  - apply not_elem_of_cons in Hno as [Hc Hno]. simpl.
    assert (byte_eqb c StationDelimeter = false) as ->.
    { apply byte_eqb_neq. congruence. }
    simpl length in Hhi. rewrite int64_wrap_id by lia.
    rewrite IH by (done || lia). f_equal. lia.
Qed.

(** X21: a line is split at its first field delimiter: with [station] free
    of it, the line [station;value] is observed under [station], with what
    [strconv.ParseFloat] returns for [value], further delimiters
    included; the error of the parse, if any, is sent, and the value is
    observed all the same. *)
Theorem processRecord_splits_at_first_delimiter
    (parseFloat : string -> float32 * option error)
    (station value : list ascii) (readings : gmap string Measurements)
    (sent : list AggregationResult) :
  StationDelimeter ∉ station ->
  Z.of_nat (length station) <= int64_max ->
  processRecord parseFloat (station ++ StationDelimeter :: value) readings sent
  = Returns (observe readings (string_of_list_ascii station)
               (parseFloat (string_of_list_ascii value)).1,
             sent ++ (errorResult <$>
                        option_list (parseFloat (string_of_list_ascii value)).2)).
Proof.
  intros Hno Hlen. unfold processRecord.
  rewrite scanDelimeter_first by (done || unfold int64_min; lia).
  rewrite Z.add_0_l.
  replace (Z.to_nat (Z.of_nat (length station) + 1)) with (S (length station)) by lia.
  rewrite Nat2Z.id, take_app_length.
  change (station ++ StationDelimeter :: value)
    with (station ++ [StationDelimeter] ++ value).
  rewrite app_assoc, drop_app_length' by (rewrite length_app; simpl; lia).
  destruct (parseFloat (string_of_list_ascii value)) as [m32 [e|]]; simpl;
    by rewrite ?app_nil_r.
Qed.

Lemma processRecord_splits_at_first_delimiter_witness :
  processRecord parseDecimal (bytes "A" ++ StationDelimeter :: bytes "1;5") ∅ []
  = Returns (observe ∅ "A" (parseDecimal "1;5").1,
             [] ++ (errorResult <$> option_list (parseDecimal "1;5").2)).
Proof.
  apply (processRecord_splits_at_first_delimiter parseDecimal
           (bytes "A") (bytes "1;5") ∅ []).
  - unfold bytes, StationDelimeter. simpl.
    rewrite !elem_of_cons, elem_of_nil. intros [H|H]; done.
  - vm_compute. discriminate.
Defined.
